(** * Audio-Note: feature extraction history and speaker diarization

    A shallow embedding of the two numerical components of the Audio-Note
    web application:

    - [AudioProcessor] (js/exporter.js): the spectral-flux metric with its
      single-slot previous-spectrum history, and the feature-series reset;
    - [SpeakerDiarization] (the diarization module): vector extraction,
      silence filtering, k-means clustering, chunk labelling, adjacent
      merging, the speaker roster, and the run protocol with its
      notifications.

    JavaScript numbers are IEEE-754 binary64 values.  The diarization engine
    uses only [+ - * /], squares, [Math.sqrt], [Math.min], [Math.max] and
    comparisons on them, so it is embedded over Rocq's primitive binary64
    floats and runs with [vm_compute].  The spectral flux needs [Math.pow(10, x)], which has no
    primitive counterpart; the extractor is embedded over the real numbers
    ([Rpower], [sqrt]), without the rounding of [Float32Array] storage. *)

From Stdlib Require Import String Ascii.
From Stdlib Require Import List Bool Arith ZArith Lia.
From Stdlib Require QArith.
From Stdlib Require Import Reals Lra.
From Stdlib Require Import Permutation Sorted.
From Stdlib Require Uint63.
From Stdlib Require FloatAxioms SpecFloat FloatOps.
From Stdlib Require PrimFloat.
Import ListNotations.

#[global] Set Warnings "-inexact-float".

(* ===================================================================== *)
(** * The feature extractor's spectral-flux history (js/exporter.js)     *)
(* ===================================================================== *)

Module AudioProcessor.

Local Open Scope R_scope.

(** [features] of one analysis frame, as [extractAudioFeatures] builds
    it. *)
Record BandEnergies := {
  lowBand : R;
  midBand : R;
  highBand : R
}.

Record Features := {
  spectralCentroid : R;
  rms : R;
  spectralFlux : R;
  zeroCrossingRate : R;
  bandEnergies : BandEnergies
}.

Record FeatureEntry := {
  time : R;
  features : Features
}.

(** The fields of the processor object that the flux metric and the
    feature series use.  [prevFreqData] is never assigned by the
    constructor, so it starts out [undefined] ([None]). *)
Record t := {
  prevFreqData : option (list R);
  audioFeatures : list FeatureEntry
}.

(** [new AudioProcessor()]. *)
Definition new : t :=
  {| prevFreqData := None; audioFeatures := [] |}.

(** [Math.pow(10, db / 20)]: decibels to linear magnitude. *)
Definition magnitude (db : R) : R := Rpower 10 (db / 20).

(** [new Float32Array(n)]: [n] zeros. *)
Definition Float32Array (n : nat) : list R := repeat 0 n.

(** [target.set(source)]: overwrites the first [source.length] slots of
    [target]; a [RangeError] ([None]) when the source is longer. *)
Definition typed_array_set (target source : list R) : option (list R) :=
  if (length source <=? length target)%nat
  then Some (source ++ skipn (length source) target)
  else None.

(** The [for] loop of [calculateSpectralFlux]: the sum of the squared
    bin-wise differences of the linear magnitudes, accumulated from the
    left over the bins of [freqData]. *)
Definition flux_sum (freqData prev : list R) : R :=
  fold_left
    (fun sum fp =>
       let diff := magnitude (fst fp) - magnitude (snd fp) in
       sum + diff * diff)
    (combine freqData prev) 0.

(** [calculateSpectralFlux(freqData)]: the returned flux and the
    processor afterwards; [None] when [set] throws. *)
Definition calculateSpectralFlux (p : t) (freqData : list R)
  : option (R * t) :=
  match prevFreqData p with
  | None =>
      Some (0, {| prevFreqData := Some (Float32Array (length freqData));
                  audioFeatures := audioFeatures p |})
  | Some prev =>
      let sum := flux_sum freqData prev in
      match typed_array_set prev freqData with
      | Some prev' =>
          Some (sqrt sum, {| prevFreqData := Some prev';
                             audioFeatures := audioFeatures p |})
      | None => None
      end
  end.



(** The processor after the flux of each frame of a sequence has been
    computed in turn (a frame on which [set] throws leaves it as it
    was). *)
Definition after_frames (p : t) (frames : list (list R)) : t :=
  fold_left
    (fun q freqData =>
       match calculateSpectralFlux q freqData with
       | Some (_, q') => q'
       | None => q
       end)
    frames p.

End AudioProcessor.

(* ===================================================================== *)
(** * The diarization engine (class SpeakerDiarization)                  *)
(* ===================================================================== *)

Module SpeakerDiarization.

Import PrimFloat.

(** ** Numbers *)

(** [x !== x]: the test for NaN. *)
Definition is_nan (x : float) : bool := negb (x =? x)%float.

Definition is_neg_zero (x : float) : bool :=
  match classify x with
  | FloatClass.NZero => true
  | _ => false
  end.

Definition is_pos_zero (x : float) : bool :=
  match classify x with
  | FloatClass.PZero => true
  | _ => false
  end.

(** [Math.min(a, b)]: NaN when either is NaN; [-0] is below [+0]. *)
Definition Math_min2 (a b : float) : float :=
  if is_nan a || is_nan b then nan
  else if (b <? a)%float then b
  else if (a <? b)%float then a
  else if is_neg_zero b then b else a.

(** [Math.max(a, b)]: NaN when either is NaN; [+0] is above [-0]. *)
Definition Math_max2 (a b : float) : float :=
  if is_nan a || is_nan b then nan
  else if (a <? b)%float then b
  else if (b <? a)%float then a
  else if is_pos_zero b then b else a.

(** [Math.min(...xs)]: [Infinity] for no argument. *)
Definition Math_min (xs : list float) : float :=
  fold_left Math_min2 xs infinity.

(** [xs.indexOf(x)]: the first index whose element is [=== x], or -1. *)
Fixpoint indexOf_from (xs : list float) (x : float) (i : Z) : Z :=
  match xs with
  | [] => (-1)%Z
  | y :: xs' => if (y =? x)%float then i else indexOf_from xs' x (i + 1)%Z
  end.

Definition indexOf (xs : list float) (x : float) : Z := indexOf_from xs x 0%Z.

(** [xs[i]] of a number array: [undefined] out of range, which every use
    below turns into NaN by arithmetic or into [false] by comparison. *)
Definition at_index (xs : list float) (i : nat) : float := nth i xs nan.

(** [xs[i] = f(xs[i])] for an index in range (the callers below only
    write in range). *)
Fixpoint list_update {A : Type} (i : nat) (f : A -> A) (xs : list A) : list A :=
  match xs, i with
  | [], _ => []
  | x :: xs', O => f x :: xs'
  | x :: xs', S i' => x :: list_update i' f xs'
  end.

(** ** Data model *)

Record BandEnergies := {
  lowBand : float;
  midBand : float;
  highBand : float
}.

Record Features := {
  spectralCentroid : float;
  rms : float;
  spectralFlux : float;
  zeroCrossingRate : float;
  bandEnergies : BandEnergies
}.

(** One entry of [audioFeatures]: [{ time, features }]. *)
Record AudioFeature := {
  af_time : float;
  af_features : Features
}.

(** [{ time, vector }]. *)
Record FeatureVector := {
  time : float;
  vector : list float
}.

(** [{ time, vector, cluster }]; cluster -1 marks silence. *)
Record LabeledVector := {
  lv_time : float;
  lv_vector : list float;
  cluster : Z
}.

(** A transcript chunk [{ text, timestamp: [start, end] }]. *)
Record Chunk := {
  chunk_text : string;
  timestamp : float * float
}.

Record Transcription := {
  text : string;
  chunks : list Chunk
}.

(** An output segment [{ text, start, end, speaker }]. *)
Record Segment := {
  seg_text : string;
  seg_start : float;
  seg_end : float;
  speaker : string
}.

Record Result := {
  res_text : string;
  segments : list Segment;
  speakers : list string
}.

(** [{ centroids, assignments }]. *)
Record KMeans := {
  centroids : list (list float);
  assignments : list Z
}.

(** The engine object.  A callback slot holds [null] or a function; the
    model records whether a handler is registered and collects what the
    handlers are called with in a trace of notifications.  Handlers are
    taken to return normally and to leave the engine alone. *)
Record t := {
  maxSpeakers : Z;
  minSegmentDuration : float;
  mergeThreshold : float;
  isProcessing : bool;
  onProcessingStart : bool;
  onProcessingProgress : bool;
  onProcessingComplete : bool;
  onError : bool
}.

(** Exceptions raised inside a run. *)
Inductive exn := RangeError | TypeError.

Inductive notification :=
| NStart
| NProgress (progress : float) (message : string)
| NComplete (result : Result)
| NError (phase : string) (error : exn).

(** What a call of [processDiarization] comes back with: the busy
    [Error] thrown before the [try], an exception re-thrown by the
    [catch], or the result. *)
Inductive outcome :=
| Busy
| Failed (error : exn)
| Done (result : Result).

(** The ambient [Math.random]: [Math.floor(Math.random() * n)] is an
    integer in [0, n) for n > 0.  The source of randomness is a sequence
    of naturals and a cursor; the next drawn index is [draw cursor mod n]. *)
Record rng := {
  draw : nat -> nat;
  cursor : nat
}.

Definition random_index (g : rng) (n : nat) : nat := draw g (cursor g) mod n.

Definition rng_next (g : rng) : rng :=
  {| draw := draw g; cursor := S (cursor g) |}.

(** ** Constructor and configuration *)

Definition new : t :=
  {| maxSpeakers := 3;
     minSegmentDuration := 1.0;
     mergeThreshold := 0.5;
     isProcessing := false;
     onProcessingStart := false;
     onProcessingProgress := false;
     onProcessingComplete := false;
     onError := false |}.

Definition with_maxSpeakers (e : t) (n : Z) : t :=
  {| maxSpeakers := n;
     minSegmentDuration := minSegmentDuration e;
     mergeThreshold := mergeThreshold e;
     isProcessing := isProcessing e;
     onProcessingStart := onProcessingStart e;
     onProcessingProgress := onProcessingProgress e;
     onProcessingComplete := onProcessingComplete e;
     onError := onError e |}.

Definition with_isProcessing (e : t) (b : bool) : t :=
  {| maxSpeakers := maxSpeakers e;
     minSegmentDuration := minSegmentDuration e;
     mergeThreshold := mergeThreshold e;
     isProcessing := b;
     onProcessingStart := onProcessingStart e;
     onProcessingProgress := onProcessingProgress e;
     onProcessingComplete := onProcessingComplete e;
     onError := onError e |}.

(** [setMaxSpeakers(count)], for an integer count. *)
Definition setMaxSpeakers (e : t) (count : Z) : t :=
  with_maxSpeakers e (Z.max 1 (Z.min 10 count)).

Definition isCurrentlyProcessing (e : t) : bool := isProcessing e.

(** ** Vector extraction *)

Definition extractFeatureVectors (audioFeatures : list AudioFeature)
  : list FeatureVector :=
  map (fun frame =>
         let features := af_features frame in
         {| time := af_time frame;
            vector :=
              [ spectralCentroid features;
                (rms features * 100)%float;
                (spectralFlux features * 10)%float;
                (zeroCrossingRate features * 1000)%float;
                (lowBand (bandEnergies features) * 10)%float;
                (midBand (bandEnergies features) * 10)%float;
                (highBand (bandEnergies features) * 10)%float ] |})
      audioFeatures.

(** ** Euclidean distance *)

(** The [reduce] of [euclideanDistance]: walks [vec1] from the left and
    reads [vec2] at the same index ([undefined], hence NaN after the
    subtraction, once [vec2] is exhausted).  [Math.pow(d, 2)] is the
    product [d * d]. *)
Fixpoint squared_differences (sum : float) (vec1 vec2 : list float) : float :=
  match vec1 with
  | [] => sum
  | value :: vec1' =>
      let other := match vec2 with [] => nan | x :: _ => x end in
      let d := (value - other)%float in
      squared_differences (sum + d * d)%float vec1' (tl vec2)
  end.

Definition euclideanDistance (vec1 vec2 : list float) : float :=
  sqrt (squared_differences 0%float vec1 vec2).

(** ** k-means *)

(** The variables of the [while] loop of [kMeansClustering]. *)
Record KState := {
  ks_centroids : list (list float);
  ks_assignments : list Z;
  iterations : nat;
  changed : bool
}.

(** The inner [for (j = 0; j < k; j++)]: scans the centroids by index
    and keeps the first one that is strictly closer than all before. *)
Fixpoint closest_from (vector : list float) (cs : list (list float))
    (js : list nat) (minDistance : float) (closestCentroid : nat) : nat :=
  match js with
  | [] => closestCentroid
  | j :: js' =>
      let distance := euclideanDistance vector (nth j cs []) in
      if (distance <? minDistance)%float
      then closest_from vector cs js' distance j
      else closest_from vector cs js' minDistance closestCentroid
  end.

Definition closest (vector : list float) (cs : list (list float)) (k : nat)
  : nat :=
  closest_from vector cs (seq 0 k) infinity 0.

(** Step 1 of a round: every vector goes to its closest centroid;
    the flag tells whether some assignment was rewritten. *)
Fixpoint assign_step (cs : list (list float)) (k : nat)
    (vectors : list (list float)) (asg : list Z) : list Z * bool :=
  match vectors, asg with
  | vector :: vectors', a :: asg' =>
      let c := Z.of_nat (closest vector cs k) in
      let '(rest, ch) := assign_step cs k vectors' asg' in
      (c :: rest, negb (a =? c)%Z || ch)
  | _, _ => ([], false)
  end.

(** [row[j] += vector[j]] for each j below [vector.length]; a write one
    past the end of the row appends [undefined + x], that is NaN. *)
Fixpoint add_into (row vector : list float) : list float :=
  match vector with
  | [] => row
  | x :: vector' =>
      match row with
      | [] => nan :: add_into [] vector'
      | r :: row' => (r + x)%float :: add_into row' vector'
      end
  end.

(** The accumulation loop of step 2 over all vectors. *)
Fixpoint accumulate (vectors : list (list float)) (asg : list Z)
    (sums : list (list float)) (counts : list float)
  : list (list float) * list float :=
  match vectors, asg with
  | vector :: vectors', a :: asg' =>
      let c := Z.to_nat a in
      accumulate vectors' asg'
        (list_update c (fun row => add_into row vector) sums)
        (list_update c (fun n => (n + 1)%float) counts)
  | _, _ => (sums, counts)
  end.

(** The last loop of step 2: a centroid that owns a vector moves to the
    mean of its vectors; one that owns none stays where it is. *)
Definition move_centroids (k : nat) (sums : list (list float))
    (counts : list float) (cs : list (list float)) : list (list float) :=
  fold_left
    (fun cs i =>
       let n := at_index counts i in
       if (0 <? n)%float
       then list_update i
              (fun _ => map (fun x => (x / n)%float) (nth i sums [])) cs
       else cs)
    (seq 0 k) cs.

(** One pass through the body of the [while] loop. *)
Definition round (vectors : list (list float)) (k : nat) (s : KState)
  : KState :=
  let '(asg, ch) := assign_step (ks_centroids s) k vectors (ks_assignments s) in
  let dim := length (nth 0 vectors []) in
  let '(sums, counts) :=
    accumulate vectors asg (repeat (repeat 0%float dim) k) (repeat 0%float k) in
  {| ks_centroids := move_centroids k sums counts (ks_centroids s);
     ks_assignments := asg;
     iterations := S (iterations s);
     changed := ch |}.

(** The loop condition [changed && iterations < maxIterations]. *)
Definition continue (maxIterations : nat) (s : KState) : bool :=
  changed s && (iterations s <? maxIterations).

(** A [while] loop run with a bound on the number of tests of its
    condition: [None] when the bound is reached before the condition
    fails. *)
Fixpoint while {S : Type} (fuel : nat) (cond : S -> bool) (body : S -> S)
    (s : S) : option S :=
  match fuel with
  | O => None
  | Datatypes.S fuel' =>
      if cond s then while fuel' cond body (body s) else Some s
  end.

(** The initial centroids: k draws of a random vector, copied. *)
Fixpoint initial_centroids (vectors : list (list float)) (k : nat) (g : rng)
  : list (list float) * rng :=
  match k with
  | O => ([], g)
  | Datatypes.S k' =>
      let randomIndex := random_index g (length vectors) in
      let '(rest, g') := initial_centroids vectors k' (rng_next g) in
      (nth randomIndex vectors [] :: rest, g')
  end.

Definition initial_state (vectors : list (list float)) (k : nat) (g : rng)
  : KState * rng :=
  let '(cs, g') := initial_centroids vectors k g in
  ({| ks_centroids := cs;
      ks_assignments := repeat (-1)%Z (length vectors);
      iterations := 0;
      changed := true |}, g').

(** The state in which the loop of [kMeansClustering] is left, when
    [fuel] tests of the condition suffice. *)
Definition kMeans_loop (fuel : nat) (vectors : list (list float)) (k : nat)
    (maxIterations : nat) (g : rng) : option KState :=
  while fuel (continue maxIterations) (round vectors k)
        (fst (initial_state vectors k g)).

(** [kMeansClustering(vectors, k, maxIterations)] for k >= 1: the loop
    tests its condition at most [maxIterations + 1] times, so the bound
    given to [while] is never reached. *)
Definition kMeansClustering (vectors : list (list float)) (k : nat)
    (maxIterations : nat) (g : rng) : KMeans * rng :=
  match vectors with
  | [] => ({| centroids := []; assignments := [] |}, g)
  | _ :: _ =>
      let '(s0, g') := initial_state vectors k g in
      let s := match while (S maxIterations) (continue maxIterations)
                             (round vectors k) s0 with
               | Some s => s
               | None => s0
               end in
      ({| centroids := ks_centroids s; assignments := ks_assignments s |}, g')
  end.

(** ** Clustering of the feature vectors *)

(** The promise of [clusterFeatureVectors(featureVectors, k)]: resolved
    with the labelled series ([inl]) or rejected with the exception its
    executor threw ([inr]).  With [Math.min(k, activeVectors.length)]
    below 1, [Array(k)] throws a [RangeError] (negative length) or the
    centroid accumulation a [TypeError] (no row to add into; an active
    vector has at least two components). *)
Definition clusterFeatureVectors (featureVectors : list FeatureVector)
    (k : Z) (g : rng) : (list LabeledVector + exn) * rng :=
  let activeVectors :=
    filter (fun v => (0.1 <? at_index (vector v) 1)%float) featureVectors in
  match activeVectors with
  | [] => (inl [], g)
  | _ :: _ =>
      let kk := Z.min k (Z.of_nat (length activeVectors)) in
      if (kk <? 0)%Z then (inr RangeError, g)
      else if (kk =? 0)%Z then (inr TypeError, g)
      else
        let '(kMeans, g') :=
          kMeansClustering (map vector activeVectors) (Z.to_nat kk) 100 g in
        (inl (map (fun v =>
                     if (at_index (vector v) 1 <=? 0.1)%float
                     then {| lv_time := time v; lv_vector := vector v;
                             cluster := (-1)%Z |}
                     else
                       let distances :=
                         map (fun centroid =>
                                euclideanDistance (vector v) centroid)
                             (centroids kMeans) in
                       let minIndex := indexOf distances (Math_min distances) in
                       {| lv_time := time v; lv_vector := vector v;
                          cluster := minIndex |})
                  featureVectors), g')
  end.

(** ** Chunk labelling *)

(** The tally object [clusterCounts].  Its keys are cluster ids, which
    are array indices (an id is an index into the centroid array, hence
    below 2^32 - 1); [Object.entries] lists such keys in ascending numeric
    order, so the object is kept as an association list sorted by key.
    The tallies are integers. *)
Fixpoint tally (counts : list (Z * nat)) (c : Z) : list (Z * nat) :=
  match counts with
  | [] => [(c, 1)]
  | (c', n) :: rest =>
      if (c =? c')%Z then (c', S n) :: rest
      else if (c <? c')%Z then (c, 1) :: counts
      else (c', n) :: tally rest c
  end.

(** The [filter] on the chunk's time range, both ends included. *)
Definition in_range (startTime endTime : float) (f : LabeledVector) : bool :=
  (startTime <=? lv_time f)%float && (lv_time f <=? endTime)%float.

(** The callback of the [reduce]: tallies a non-silent cluster. *)
Definition tally_feature (counts : list (Z * nat)) (feature : LabeledVector)
  : list (Z * nat) :=
  if (0 <=? cluster feature)%Z then tally counts (cluster feature) else counts.

Definition clusterCounts (relevantFeatures : list LabeledVector)
  : list (Z * nat) :=
  fold_left tally_feature relevantFeatures [].

(** The callback of the [forEach] over the entries, on the pair
    (dominantCluster, maxCount): an entry whose count is strictly larger
    takes over. *)
Definition scan_step (dm entry : Z * nat) : Z * nat :=
  if (snd dm <? snd entry)%nat then (fst entry, snd entry) else dm.

Definition dominant_scan (entries : list (Z * nat)) : Z * nat :=
  fold_left scan_step entries ((-1)%Z, 0).

(** [String.fromCharCode(65 + dominantCluster % 26)], one character. *)
Definition letter (dominantCluster : Z) : string :=
  String (ascii_of_nat (Z.to_nat (65 + Z.rem dominantCluster 26))) EmptyString.

Definition speakerLabel (dominantCluster : Z) : string :=
  if (0 <=? dominantCluster)%Z then letter dominantCluster
  else "Unknown"%string.

Definition label_chunk (clusteredFeatures : list LabeledVector) (chunk : Chunk)
  : Segment :=
  let '(startTime, endTime) := timestamp chunk in
  let relevantFeatures := filter (in_range startTime endTime) clusteredFeatures in
  let dominantCluster := fst (dominant_scan (clusterCounts relevantFeatures)) in
  {| seg_text := chunk_text chunk;
     seg_start := startTime;
     seg_end := endTime;
     speaker := speakerLabel dominantCluster |}.

(** [assignSpeakersToSegments]; the second argument is not used by the
    source either. *)
Definition assignSpeakersToSegments (clusteredFeatures : list LabeledVector)
    (featureVectors : list FeatureVector) (transcriptionChunks : list Chunk)
  : list Segment :=
  map (label_chunk clusteredFeatures) transcriptionChunks.

(** ** Segment optimization *)

(** The test of the [if] in the loop of [optimizeSegments]. *)
Definition mergeable (threshold : float) (previousSegment currentSegment : Segment)
  : bool :=
  String.eqb (speaker currentSegment) (speaker previousSegment)
  && (seg_start currentSegment - seg_end previousSegment <=? threshold)%float.

(** The two assignments of the merging branch. *)
Definition absorb (previousSegment currentSegment : Segment) : Segment :=
  {| seg_text :=
       String.append (seg_text previousSegment)
         (String.append " " (seg_text currentSegment));
     seg_start := seg_start previousSegment;
     seg_end := seg_end currentSegment;
     speaker := speaker previousSegment |}.

(** One iteration of the loop on the array [result], whose last element
    is [previousSegment].  The loop starts from a one-element array and
    never shrinks it, so the empty case is not met. *)
Definition optimize_step (threshold : float) (result : list Segment)
    (currentSegment : Segment) : list Segment :=
  match rev result with
  | [] => [currentSegment]
  | previousSegment :: before =>
      if mergeable threshold previousSegment currentSegment
      then rev before ++ [absorb previousSegment currentSegment]
      else result ++ [currentSegment]
  end.

(** [optimizeSegments(segments)] with [this.mergeThreshold = threshold].
    The segment objects are distinct (the labelling creates one per
    chunk), so updating the kept segment in place is the replacement of
    the last element of [result]. *)
Definition optimizeSegments (threshold : float) (segments : list Segment)
  : list Segment :=
  match segments with
  | [] => segments
  | [_] => segments
  | first :: others => fold_left (optimize_step threshold) others [first]
  end.

(** ** Speaker roster *)

(** [uniqueSpeakers.add(x)] on a [Set], which keeps insertion order. *)
Definition set_add (s : list string) (x : string) : list string :=
  if existsb (String.eqb x) s then s else s ++ [x].

(** [Array.prototype.sort()] without a comparator orders strings by
    their code units: an insertion sort with [String.leb]. *)
Fixpoint insert_sorted (x : string) (xs : list string) : list string :=
  match xs with
  | [] => [x]
  | y :: xs' => if String.leb x y then x :: xs else y :: insert_sorted x xs'
  end.

Definition sort (xs : list string) : list string :=
  fold_right insert_sorted [] xs.

Definition extractUniqueSpeakers (segments : list Segment) : list string :=
  sort (fold_left
          (fun uniqueSpeakers segment =>
             if negb (String.eqb (speaker segment) "Unknown")
             then set_add uniqueSpeakers (speaker segment)
             else uniqueSpeakers)
          segments []).

(** ** The run protocol *)

(** [updateProgress(progress, message)] appends to the trace of
    notifications when a progress handler is registered. *)
Definition updateProgress (e : t) (progress : float) (message : string)
    (trace : list notification) : list notification :=
  if onProcessingProgress e
  then trace ++ [NProgress (Math_min2 1 (Math_max2 0 progress)) message]
  else trace.

Definition notify (registered : bool) (n : notification)
    (trace : list notification) : list notification :=
  if registered then trace ++ [n] else trace.

(** The phase messages, as the source has them. *)
Definition msg_extract : string := "特性ベクトルを抽出中...".
Definition msg_cluster : string := "クラスタリング中...".
Definition msg_assign : string := "セグメントに話者を割り当て中...".
Definition msg_optimize : string := "セグメントを最適化中...".
Definition msg_done : string := "完了".

(** What one call of [processDiarization] leaves behind: its outcome,
    the engine afterwards, the notifications delivered to the registered
    handlers, and the random source afterwards. *)
Record Run := {
  run_outcome : outcome;
  run_engine : t;
  run_trace : list notification;
  run_rng : rng
}.

(** [processDiarization(audioFeatures, transcription)], from the call to
    the settling of the promise it returns.  The fields of the engine
    are read as they are at the call; the in-flight flag is [true] in
    between, which is the state a second call meets. *)
Definition processDiarization (e : t) (audioFeatures : list AudioFeature)
    (transcription : Transcription) (g : rng) : Run :=
  if isProcessing e
  then {| run_outcome := Busy; run_engine := e; run_trace := [];
          run_rng := g |}
  else
    let e1 := with_isProcessing e true in
    let tr := notify (onProcessingStart e1) NStart [] in
    let tr := updateProgress e1 0.1 msg_extract tr in
    let featureVectors := extractFeatureVectors audioFeatures in
    let tr := updateProgress e1 0.3 msg_cluster tr in
    match clusterFeatureVectors featureVectors (maxSpeakers e1) g with
    | (inr error, g') =>
        let e2 := with_isProcessing e1 false in
        {| run_outcome := Failed error;
           run_engine := e2;
           run_trace := notify (onError e2) (NError "diarization" error) tr;
           run_rng := g' |}
    | (inl clusters, g') =>
        let tr := updateProgress e1 0.6 msg_assign tr in
        let labeledSegments :=
          assignSpeakersToSegments clusters featureVectors
            (chunks transcription) in
        let tr := updateProgress e1 0.8 msg_optimize tr in
        let optimizedSegments :=
          optimizeSegments (mergeThreshold e1) labeledSegments in
        let result :=
          {| res_text := text transcription;
             segments := optimizedSegments;
             speakers := extractUniqueSpeakers optimizedSegments |} in
        let tr := updateProgress e1 1.0 msg_done tr in
        let tr := notify (onProcessingComplete e1) (NComplete result) tr in
        {| run_outcome := Done result;
           run_engine := with_isProcessing e1 false;
           run_trace := tr;
           run_rng := g' |}
    end.

(** The progress updates of a trace, in order. *)
Definition progress_updates (trace : list notification)
  : list (float * string) :=
  flat_map (fun n => match n with
                     | NProgress p m => [(p, m)]
                     | _ => []
                     end) trace.

(** The five milestones with their phase messages. *)
Definition milestones : list (float * string) :=
  [ (0.1, msg_extract); (0.3, msg_cluster); (0.6, msg_assign);
    (0.8, msg_optimize); (1.0, msg_done) ]%float.

(** ** Notions the properties are stated with *)

(** The number of frames of a labelled series that lie in the time
    range and carry cluster id [c]. *)
Definition frames_of (clusteredFeatures : list LabeledVector)
    (startTime endTime : float) (c : Z) : nat :=
  length (filter (fun f => in_range startTime endTime f && (cluster f =? c)%Z)
                 clusteredFeatures).

(** The merge pass as the specification words it: walk the segments in
    order with the current kept segment in hand; a segment with the kept
    segment's label and a gap within the threshold extends the kept
    segment, any other segment closes it and becomes the kept one. *)
Fixpoint merge_from (threshold : float) (kept : Segment) (rest : list Segment)
  : list Segment :=
  match rest with
  | [] => [kept]
  | s :: rest' =>
      if mergeable threshold kept s
      then merge_from threshold (absorb kept s) rest'
      else kept :: merge_from threshold s rest'
  end.

Definition merge_pass (threshold : float) (segments : list Segment)
  : list Segment :=
  match segments with
  | [] => []
  | first :: others => merge_from threshold first others
  end.

(** No two neighbours of a segment list can still be merged. *)
Fixpoint settled (threshold : float) (segments : list Segment) : bool :=
  match segments with
  | [] => true
  | a :: rest =>
      match rest with
      | [] => true
      | b :: _ => negb (mergeable threshold a b) && settled threshold rest
      end
  end.

(** The loop state after [n] rounds of k-means. *)
Definition rounds (vectors : list (list float)) (k n : nat) (s : KState)
  : KState :=
  Nat.iter n (round vectors k) s.

(** The distinct speaker labels of a segment list, "Unknown" left out. *)
Definition distinct_speakers (segs : list Segment) : list string :=
  nodup string_dec
        (filter (fun l => negb (String.eqb l "Unknown")) (map speaker segs)).

(** A frame is active when its scaled RMS (vector index 1) exceeds 0.1. *)
Definition active (v : FeatureVector) : bool :=
  (0.1 <? at_index (vector v) 1)%float.

(** The tally an object holds for key [c] ([undefined], counted as 0,
    when the key is absent). *)
Fixpoint tally_at (counts : list (Z * nat)) (c : Z) : nat :=
  match counts with
  | [] => 0
  | (c', n) :: rest => if (c =? c')%Z then n else tally_at rest c
  end.

(** The keys of a tally object increase strictly and lie above [lo]. *)
Fixpoint ascending (lo : Z) (counts : list (Z * nat)) : Prop :=
  match counts with
  | [] => True
  | (c, _) :: rest => (lo < c)%Z /\ ascending c rest
  end.

(** The dominant cluster as the specification words it, for the count
    [n c] of frames per cluster id: a non-negative id with at least one
    frame whose count no other non-negative id exceeds, and the lowest
    of the ids that reach that count. *)
Definition is_dominant (n : Z -> nat) (c : Z) : Prop :=
  (0 <= c)%Z
  /\ 0 < n c
  /\ (forall c', (0 <= c')%Z -> n c' <= n c)
  /\ (forall c', (0 <= c')%Z -> n c' = n c -> (c <= c')%Z).

(** The letter ['A' + (c mod 26)] as a one-character string. *)
Definition letter_of (c : Z) : string :=
  String (ascii_of_nat (Z.to_nat (65 + c mod 26))) EmptyString.

(** What the specification asks of the segment made from a chunk. *)
Definition labelled (clusteredFeatures : list LabeledVector) (chunk : Chunk)
    (seg : Segment) : Prop :=
  let n := frames_of clusteredFeatures (fst (timestamp chunk))
                     (snd (timestamp chunk)) in
  seg_text seg = chunk_text chunk
  /\ seg_start seg = fst (timestamp chunk)
  /\ seg_end seg = snd (timestamp chunk)
  /\ (((forall c, (0 <= c)%Z -> n c = 0) /\ speaker seg = "Unknown"%string)
      \/ (exists c, is_dominant n c /\ speaker seg = letter_of c)).

(** The labels a series with cluster ids below k can give. *)
Definition label_below (k : Z) (l : string) : Prop :=
  l = "Unknown"%string \/ exists c, (0 <= c < k)%Z /\ l = letter_of c.

(** The order in which [sort()] puts two labels. *)
Definition before (a b : string) : Prop := String.leb a b = true.

(** The texts of a list joined by single spaces. *)
Definition joined (texts : list string) : string := String.concat " " texts.

(** A labelled frame that is not silent. *)
Definition voiced (f : LabeledVector) : bool := (0 <=? cluster f)%Z.

(** The step of the loop of [move_centroids] at index [i]. *)
Definition move_step (sums : list (list float)) (counts : list float)
    (cs : list (list float)) (i : nat) : list (list float) :=
  let n := at_index counts i in
  if (0 <? n)%float
  then list_update i (fun _ => map (fun x => (x / n)%float) (nth i sums [])) cs
  else cs.

(** The random source after [n] more draws. *)
Definition advanced (g : rng) (n : nat) : rng :=
  {| draw := draw g; cursor := cursor g + n |}.

(** The engine with a recorder in its progress slot.  What a call of
    [updateProgress] emits is what the handler in that slot receives;
    the slot is read by [updateProgress] and by nothing else. *)
Definition observing (e : t) : t :=
  {| maxSpeakers := maxSpeakers e;
     minSegmentDuration := minSegmentDuration e;
     mergeThreshold := mergeThreshold e;
     isProcessing := isProcessing e;
     onProcessingStart := onProcessingStart e;
     onProcessingProgress := true;
     onProcessingComplete := onProcessingComplete e;
     onError := onError e |}.

(** The progress updates that a run emits: those of its calls of
    [updateProgress], as the recorder receives them. *)
Definition emitted_progress (e : t) (audioFeatures : list AudioFeature)
    (transcription : Transcription) (g : rng) : list (float * string) :=
  progress_updates
    (run_trace (processDiarization (observing e) audioFeatures transcription g)).

(** The segment that a chunk without any counted frame becomes. *)
Definition unknown_segment (chunk : Chunk) : Segment :=
  {| seg_text := chunk_text chunk;
     seg_start := fst (timestamp chunk);
     seg_end := snd (timestamp chunk);
     speaker := "Unknown" |}.

(** The distance from a vector to the centroid of index [j]. *)
Definition distance_to (vector : list float) (cs : list (list float))
    (j : nat) : float :=
  euclideanDistance vector (nth j cs []).

(** Index [c] is a nearest centroid of a vector among the first [k], and
    the lowest such index: no centroid is strictly closer, and every
    centroid of lower index is strictly farther (or at a distance that
    does not compare, NaN). *)
Definition nearest (vector : list float) (cs : list (list float))
    (k c : nat) : Prop :=
  c < k
  /\ (forall j, j < k ->
                (distance_to vector cs j <? distance_to vector cs c)%float
                = false)
  /\ (forall j, j < c ->
                (distance_to vector cs j <=? distance_to vector cs c)%float
                = false).

End SpeakerDiarization.

(* ===================================================================== *)
(** * The recording clock (class AudioProcessor)                          *)
(* ===================================================================== *)

Module RecordingClock.

Local Open Scope Z_scope.

(** The fields of the processor object that keep the time.  [Date.now()]
    is an integer number of milliseconds; every method below takes the
    value it reads as [now]. *)
Record t := {
  isRecording : bool;
  isPaused : bool;
  recordingStartTime : Z;
  pauseStartTime : Z;
  totalPauseDuration : Z
}.

(** The constructor's values. *)
Definition new : t :=
  {| isRecording := false; isPaused := false; recordingStartTime := 0;
     pauseStartTime := 0; totalPauseDuration := 0 |}.

(** [startRecording()], when [db.createRecording] and the media recorder
    do not throw: nothing happens while a recording is running;
    otherwise the clock starts at [now] with no pause counted. *)
Definition startRecording (p : t) (now : Z) : t :=
  if isRecording p then p
  else {| isRecording := true;
          isPaused := isPaused p;
          recordingStartTime := now;
          pauseStartTime := pauseStartTime p;
          totalPauseDuration := 0 |}.

(** [pauseRecording()] (the media recorder's [pause] returns). *)
Definition pauseRecording (p : t) (now : Z) : t :=
  if negb (isRecording p) || isPaused p then p
  else {| isRecording := isRecording p;
          isPaused := true;
          recordingStartTime := recordingStartTime p;
          pauseStartTime := now;
          totalPauseDuration := totalPauseDuration p |}.

(** [resumeRecording()] (the media recorder's [resume] returns). *)
Definition resumeRecording (p : t) (now : Z) : t :=
  if negb (isRecording p) || negb (isPaused p) then p
  else {| isRecording := isRecording p;
          isPaused := false;
          recordingStartTime := recordingStartTime p;
          pauseStartTime := pauseStartTime p;
          totalPauseDuration :=
            totalPauseDuration p + (now - pauseStartTime p) |}.

(** The numerator of [getCurrentRecordingTime()], in milliseconds.  The
    method reads the clock once for the running pause ([nowPause], read
    when paused only) and once more for the result ([now]). *)
Definition recordingMillis (p : t) (nowPause now : Z) : Z :=
  let pauseTime :=
    if isPaused p
    then totalPauseDuration p + (nowPause - pauseStartTime p)
    else totalPauseDuration p in
  now - recordingStartTime p - pauseTime.

(** [getCurrentRecordingTime()], in seconds: the exact quotient by 1000,
    of which the source returns the nearest binary64 value. *)
Definition getCurrentRecordingTime (p : t) (nowPause now : Z)
  : QArith_base.Q :=
  if negb (isRecording p) then QArith_base.Qmake 0 1
  else QArith_base.Qmake (recordingMillis p nowPause now) 1000.

(** The [duration] that the [onstop] handler of [stopRecording()]
    computes, passes to the database and to [onRecordingStop]. *)
Definition stopDuration (p : t) (now : Z) : QArith_base.Q :=
  QArith_base.Qmake (now - recordingStartTime p - totalPauseDuration p) 1000.

(** The state reset of that handler. *)
Definition stopped (p : t) : t :=
  {| isRecording := false;
     isPaused := false;
     recordingStartTime := recordingStartTime p;
     pauseStartTime := pauseStartTime p;
     totalPauseDuration := totalPauseDuration p |}.

End RecordingClock.

(* ===================================================================== *)
(** * Zero-crossing rate (class AudioProcessor)                           *)
(* ===================================================================== *)

Module TimeDomain.

Import PrimFloat.

(** [x < 0] and [x >= 0] on a sample. *)
Definition negative (x : float) : bool := (x <? 0)%float.
Definition nonnegative (x : float) : bool := (0 <=? x)%float.

(** The test of the loop on the pair of samples at [i - 1] and [i]. *)
Definition crosses (previous current : float) : bool :=
  (negative previous && nonnegative current)
  || (nonnegative previous && negative current).

(** The loop from [i = 1]: [count] over the adjacent pairs, the sample at
    [i - 1] in hand. *)
Fixpoint crossings_from (previous : float) (rest : list float) : nat :=
  match rest with
  | [] => 0
  | current :: rest' =>
      (if crosses previous current then 1 else 0) + crossings_from current rest'
  end.

Definition crossings (timeData : list float) : nat :=
  match timeData with
  | [] => 0
  | first :: rest => crossings_from first rest
  end.

(** A count or a length as a number (exact below 2^53). *)
Definition number (n : nat) : float :=
  of_uint63 (Uint63.of_Z (Z.of_nat n)).

(** [calculateZeroCrossingRate(timeData)]. *)
Definition calculateZeroCrossingRate (timeData : list float) : float :=
  (number (crossings timeData) / number (length timeData))%float.

(** Adjacent samples always differ in sign. *)
Fixpoint alternating_from (previous : float) (rest : list float) : bool :=
  match rest with
  | [] => true
  | current :: rest' => crosses previous current && alternating_from current rest'
  end.

Definition alternating (timeData : list float) : bool :=
  match timeData with
  | [] => true
  | first :: rest => alternating_from first rest
  end.

End TimeDomain.

(* ===================================================================== *)
(** * Sample inputs                                                       *)
(* ===================================================================== *)

Module Samples.

Import PrimFloat.
Import SpeakerDiarization.

(** An engine with a handler in every callback slot. *)
Definition listening : t :=
  {| maxSpeakers := 3;
     minSegmentDuration := 1.0%float;
     mergeThreshold := 0.5%float;
     isProcessing := false;
     onProcessingStart := true;
     onProcessingProgress := true;
     onProcessingComplete := true;
     onError := true |}.

(** A random source that draws 0, 1, 2, ... *)
Definition counting : rng := {| draw := fun n => n; cursor := 0 |}.

Definition frame (t r c : float) : AudioFeature :=
  {| af_time := t;
     af_features :=
       {| spectralCentroid := c;
          rms := r;
          spectralFlux := 0%float;
          zeroCrossingRate := 0%float;
          bandEnergies := {| lowBand := 0%float; midBand := 0%float;
                             highBand := 0%float |} |} |}.

(** Two voices (centroid near 10 and near 50) and one silent frame. *)
Definition recording : list AudioFeature :=
  [ frame 0.1 0.5 10; frame 0.5 0.5 11; frame 1.3 0.5 50;
    frame 1.5 0.0001 10; frame 1.9 0.5 52 ]%float.

(** A recording in which nobody speaks. *)
Definition silence : list AudioFeature :=
  [ frame 0.1 0.0001 10; frame 0.5 0.0005 11; frame 1.3 0.001 50 ]%float.

(** The vectors of the recording, as k-means receives them. *)
Definition voices : list (list float) :=
  map vector (extractFeatureVectors recording).

Definition hello_world : Transcription :=
  {| text := "hello world";
     chunks := [ {| chunk_text := "hello"; timestamp := (0, 1)%float |};
                 {| chunk_text := "world"; timestamp := (1.2, 2)%float |} ] |}.

(** Four frames in the first second, two of cluster 1 around two of
    cluster 0, and one silent frame: a tie between the two clusters. *)
Definition tie : list LabeledVector :=
  [ {| lv_time := 0.1; lv_vector := []; cluster := 1 |};
    {| lv_time := 0.2; lv_vector := []; cluster := 0 |};
    {| lv_time := 0.3; lv_vector := []; cluster := (-1) |};
    {| lv_time := 0.4; lv_vector := []; cluster := 0 |};
    {| lv_time := 0.5; lv_vector := []; cluster := 1 |} ]%float.

(** The labelled series of the recording for three speakers. *)
Definition labelled_recording : list LabeledVector :=
  match fst (clusterFeatureVectors (extractFeatureVectors recording) 3
                                   counting) with
  | inl clusters => clusters
  | inr _ => []
  end.

Definition nothing_said : Transcription :=
  {| text := ""; chunks := [] |}.

End Samples.

(* ===================================================================== *)
(** * Properties of the spectral-flux history                            *)
(* ===================================================================== *)

Module AudioProcessorFacts.

Import AudioProcessor.
Local Open Scope R_scope.

Lemma magnitude_0 : magnitude 0 = 1.
Proof.
  unfold magnitude.
  replace (0 / 20) with 0 by lra.
  apply Rpower_O; lra.
Qed.






End AudioProcessorFacts.

(* ===================================================================== *)
(** * The run protocol: busy guard, notifications, result text           *)
(* ===================================================================== *)

Module RunProtocol.

Import PrimFloat.
Import SpeakerDiarization Samples.

(** The clamp applied by [updateProgress] leaves the five milestone
    values as they are. *)
Lemma clamp_milestones :
  map (fun pm => (Math_min2 1 (Math_max2 0 (fst pm)), snd pm)) milestones
  = milestones.
Proof. reflexivity. Qed.

Lemma progress_updates_app :
  forall tr1 tr2,
    progress_updates (tr1 ++ tr2) = progress_updates tr1 ++ progress_updates tr2.
Proof. intros; unfold progress_updates; apply flat_map_app. Qed.

Lemma progress_updates_notify :
  forall b n tr,
    (forall p m, n <> NProgress p m) ->
    progress_updates (notify b n tr) = progress_updates tr.
Proof.
  intros b n tr Hn. unfold notify. destruct b; [|reflexivity].
  rewrite progress_updates_app. destruct n; simpl;
    try apply app_nil_r.
  exfalso; eapply Hn; reflexivity.
Qed.

Lemma progress_updates_updateProgress :
  forall e p m tr,
    progress_updates (updateProgress e p m tr)
    = progress_updates tr
      ++ (if onProcessingProgress e
          then [(Math_min2 1 (Math_max2 0 p), m)] else []).
Proof.
  intros e p m tr. unfold updateProgress.
  destruct (onProcessingProgress e).
  - rewrite progress_updates_app. reflexivity.
  - symmetry; apply app_nil_r.
Qed.

Lemma in_complete_updateProgress :
  forall e p m tr r,
    In (NComplete r) (updateProgress e p m tr) -> In (NComplete r) tr.
Proof.
  intros e p m tr r. unfold updateProgress.
  destruct (onProcessingProgress e); [|tauto].
  intros Hin. apply in_app_or in Hin. destruct Hin as [Hin|[Hin|[]]].
  - exact Hin.
  - discriminate Hin.
Qed.

Lemma in_complete_notify :
  forall b n tr r,
    In (NComplete r) (notify b n tr) ->
    In (NComplete r) tr \/ (b = true /\ n = NComplete r).
Proof.
  intros b n tr r. unfold notify. destruct b; [|tauto].
  intros Hin. apply in_app_or in Hin. destruct Hin as [Hin|[Hin|[]]].
  - left; exact Hin.
  - right; split; [reflexivity|exact Hin].
Qed.

(** A run that is not refused and whose clustering does not throw. *)
Lemma run_done_inv :
  forall e audioFeatures transcription g result,
    run_outcome (processDiarization e audioFeatures transcription g)
    = Done result ->
    isProcessing e = false
    /\ exists clusters g',
        clusterFeatureVectors (extractFeatureVectors audioFeatures)
                              (maxSpeakers e) g = (inl clusters, g')
        /\ result
           = {| res_text := text transcription;
                segments :=
                  optimizeSegments (mergeThreshold e)
                    (assignSpeakersToSegments clusters
                       (extractFeatureVectors audioFeatures)
                       (chunks transcription));
                speakers :=
                  extractUniqueSpeakers
                    (optimizeSegments (mergeThreshold e)
                       (assignSpeakersToSegments clusters
                          (extractFeatureVectors audioFeatures)
                          (chunks transcription))) |}.
Proof.
  intros e audioFeatures transcription g result.
  unfold processDiarization.
  destruct (isProcessing e) eqn:Hbusy; [discriminate|].
  cbn [with_isProcessing maxSpeakers mergeThreshold].
  destruct (clusterFeatureVectors _ _ g) as [[clusters|error] g'];
    cbn [run_outcome]; [|discriminate].
  intros H; injection H as <-.
  split; [reflexivity|]. exists clusters, g'. split; reflexivity.
Qed.

(** C4: a call made while a run is in flight is refused with the busy
    error; the engine (in-flight flag and configuration) is left as it
    was, and no notification is delivered. *)
Theorem busy_call_is_refused :
  forall e audioFeatures transcription g,
    isProcessing e = true ->
    processDiarization e audioFeatures transcription g
    = {| run_outcome := Busy; run_engine := e; run_trace := [];
         run_rng := g |}.
Proof.
  intros e audioFeatures transcription g Hbusy.
  unfold processDiarization. rewrite Hbusy. reflexivity.
Qed.

Lemma busy_call_is_refused_witness :
  processDiarization (with_isProcessing listening true) recording
                     hello_world counting
  = {| run_outcome := Busy;
       run_engine := with_isProcessing listening true;
       run_trace := [];
       run_rng := counting |}.
Proof.
  apply (busy_call_is_refused (with_isProcessing listening true) recording
                              hello_world counting).
  reflexivity.
Defined.

(** C10: the text of the result of a successful run, and of the result
    carried by a completion notification of that run, is the text of the
    input transcription. *)
Theorem result_text_is_transcription_text :
  forall e audioFeatures transcription g result,
    run_outcome (processDiarization e audioFeatures transcription g)
    = Done result ->
    res_text result = text transcription
    /\ (forall r,
          In (NComplete r)
             (run_trace (processDiarization e audioFeatures transcription g)) ->
          res_text r = text transcription)
    /\ (onProcessingComplete e = true ->
        In (NComplete result)
           (run_trace (processDiarization e audioFeatures transcription g))).
Proof.
  intros e audioFeatures transcription g result Hrun.
  destruct (run_done_inv _ _ _ _ _ Hrun) as (Hbusy & clusters & g' & Hcl & ->).
  split; [reflexivity|].
  unfold processDiarization. rewrite Hbusy.
  cbn [with_isProcessing maxSpeakers mergeThreshold onProcessingStart
       onProcessingComplete onProcessingProgress].
  rewrite Hcl. cbn [run_trace].
  split.
  - intros r Hin.
    apply in_complete_notify in Hin. destruct Hin as [Hin|[_ Hin]].
    + repeat (apply in_complete_updateProgress in Hin).
      apply in_complete_notify in Hin.
      destruct Hin as [[]|[_ Hin]]; discriminate Hin.
    + injection Hin as <-. reflexivity.
  - intros ->. unfold notify. apply in_or_app. right. left. reflexivity.
Qed.

Lemma result_text_is_transcription_text_witness :
  exists result,
    run_outcome (processDiarization listening recording hello_world counting)
    = Done result
    /\ res_text result = "hello world"%string.
Proof.
  eexists. split.
  - vm_compute. reflexivity.
  - apply (result_text_is_transcription_text listening recording hello_world
                                             counting).
    vm_compute. reflexivity.
Defined.

(** The handler in the progress slot has no part in the outcome. *)
Lemma observing_outcome :
  forall e audioFeatures transcription g,
    run_outcome (processDiarization (observing e) audioFeatures transcription g)
    = run_outcome (processDiarization e audioFeatures transcription g).
Proof.
  intros e audioFeatures transcription g. unfold processDiarization, observing.
  cbn [isProcessing with_isProcessing maxSpeakers mergeThreshold].
  destruct (isProcessing e); [reflexivity|].
  destruct (clusterFeatureVectors _ _ g) as [[clusters|error] g'];
    reflexivity.
Qed.

Lemma progress_of_done_run :
  forall e audioFeatures transcription g result,
    run_outcome (processDiarization e audioFeatures transcription g)
    = Done result ->
    progress_updates
      (run_trace (processDiarization e audioFeatures transcription g))
    = if onProcessingProgress e then milestones else [].
Proof.
  intros e audioFeatures transcription g result Hrun.
  destruct (run_done_inv _ _ _ _ _ Hrun) as (Hbusy & clusters & g' & Hcl & _).
  unfold processDiarization. rewrite Hbusy.
  cbn [with_isProcessing maxSpeakers mergeThreshold onProcessingStart
       onProcessingComplete].
  rewrite Hcl. cbn [run_trace].
  rewrite progress_updates_notify by discriminate.
  rewrite !progress_updates_updateProgress.
  rewrite progress_updates_notify by discriminate.
  cbn [onProcessingProgress with_isProcessing].
  destruct (onProcessingProgress e); reflexivity.
Qed.

(** C3: the progress updates emitted during a successful run, its calls
    of [updateProgress] as a handler in the progress slot receives them,
    are exactly the five milestones 0.10, 0.30, 0.60, 0.80, 1.00 with
    their phase messages, in that order, whatever the input (zero active
    frames included); the handler has no part in the outcome.  They are
    delivered as such when the engine has a progress handler; without
    one the same calls are made and reach nobody. *)
Theorem progress_updates_of_a_successful_run :
  forall e audioFeatures transcription g result,
    run_outcome (processDiarization e audioFeatures transcription g)
    = Done result ->
    emitted_progress e audioFeatures transcription g = milestones
    /\ run_outcome
         (processDiarization (observing e) audioFeatures transcription g)
       = Done result
    /\ progress_updates
         (run_trace (processDiarization e audioFeatures transcription g))
       = if onProcessingProgress e then milestones else [].
Proof.
  intros e audioFeatures transcription g result Hrun.
  assert (Hobs : run_outcome
                   (processDiarization (observing e) audioFeatures
                                       transcription g) = Done result).
  { rewrite observing_outcome. exact Hrun. }
  split; [|split].
  - unfold emitted_progress.
    rewrite (progress_of_done_run _ _ _ _ _ Hobs). reflexivity.
  - exact Hobs.
  - apply (progress_of_done_run _ _ _ _ _ Hrun).
Qed.

Lemma progress_updates_of_a_successful_run_witness :
  emitted_progress new silence hello_world counting = milestones
  /\ progress_updates
       (run_trace (processDiarization listening silence hello_world counting))
     = milestones.
Proof.
  destruct (progress_updates_of_a_successful_run
              new silence hello_world counting
              {| res_text := "hello world";
                 segments :=
                   [ {| seg_text := "hello world"; seg_start := 0;
                        seg_end := 2; speaker := "Unknown" |} ];
                 speakers := [] |}) as (Hnew & _).
  { vm_compute. reflexivity. }
  destruct (progress_updates_of_a_successful_run
              listening silence hello_world counting
              {| res_text := "hello world";
                 segments :=
                   [ {| seg_text := "hello world"; seg_start := 0;
                        seg_end := 2; speaker := "Unknown" |} ];
                 speakers := [] |}) as (_ & _ & Hlistening).
  { vm_compute. reflexivity. }
  split; [exact Hnew|exact Hlistening].
Defined.

End RunProtocol.


(* ===================================================================== *)
(** * The merge pass                                                      *)
(* ===================================================================== *)

Module MergePass.

Import PrimFloat.
Import SpeakerDiarization.

Section WithThreshold.

Variable threshold : float.

Lemma optimize_step_last :
  forall result previousSegment currentSegment,
    optimize_step threshold (result ++ [previousSegment]) currentSegment
    = if mergeable threshold previousSegment currentSegment
      then result ++ [absorb previousSegment currentSegment]
      else result ++ [previousSegment; currentSegment].
Proof.
  intros result previousSegment currentSegment.
  unfold optimize_step. rewrite rev_unit.
  destruct (mergeable threshold previousSegment currentSegment).
  - rewrite rev_involutive. reflexivity.
  - rewrite <- app_assoc. reflexivity.
Qed.

(** The loop over the array [result] and the walk with the kept segment
    in hand build the same list. *)
Lemma fold_optimize_step :
  forall others result kept,
    fold_left (optimize_step threshold) others (result ++ [kept])
    = result ++ merge_from threshold kept others.
Proof.
  induction others as [|s others IH]; intros result kept; simpl.
  - reflexivity.
  - rewrite optimize_step_last.
    destruct (mergeable threshold kept s).
    + apply IH.
    + change (result ++ [kept; s]) with (result ++ [kept] ++ [s]).
      rewrite app_assoc, IH, <- app_assoc. reflexivity.
Qed.

Lemma optimizeSegments_merge_pass :
  forall segments,
    optimizeSegments threshold segments = merge_pass threshold segments.
Proof.
  intros [|first [|second others]]; try reflexivity.
  unfold optimizeSegments, merge_pass.
  apply (fold_optimize_step (second :: others) [] first).
Qed.

(** Whether a segment merges into a kept one depends on the segment's
    label and start only. *)
Lemma mergeable_same_head :
  forall kept s s',
    speaker s' = speaker s -> seg_start s' = seg_start s ->
    mergeable threshold kept s' = mergeable threshold kept s.
Proof.
  intros kept s s' Hsp Hst. unfold mergeable. rewrite Hsp, Hst. reflexivity.
Qed.

(** The first segment of a walk keeps the label and the start of the
    segment the walk began with. *)
Lemma merge_from_head :
  forall rest kept,
    exists h t,
      merge_from threshold kept rest = h :: t
      /\ speaker h = speaker kept /\ seg_start h = seg_start kept.
Proof.
  induction rest as [|s rest IH]; intros kept; simpl.
  - exists kept, []. auto.
  - destruct (mergeable threshold kept s).
    + destruct (IH (absorb kept s)) as (h & t & -> & Hsp & Hst).
      exists h, t. auto.
    + exists kept, (merge_from threshold s rest). auto.
Qed.

Lemma settled_merge_from :
  forall rest kept, settled threshold (merge_from threshold kept rest) = true.
Proof.
  induction rest as [|s rest IH]; intros kept; simpl.
  - reflexivity.
  - destruct (mergeable threshold kept s) eqn:Hm.
    + apply IH.
    + specialize (IH s).
      destruct (merge_from_head rest s) as (h & t & Heq & Hsp & Hst).
      rewrite Heq in *. cbn [settled] in *.
      rewrite (mergeable_same_head kept s h Hsp Hst), Hm. exact IH.
Qed.

Lemma merge_from_settled :
  forall rest kept,
    settled threshold (kept :: rest) = true ->
    merge_from threshold kept rest = kept :: rest.
Proof.
  induction rest as [|s rest IH]; intros kept Hs.
  - reflexivity.
  - cbn [settled] in Hs. apply andb_prop in Hs. destruct Hs as [Hm Hs].
    apply negb_true_iff in Hm. cbn [merge_from]. rewrite Hm.
    f_equal. apply IH. exact Hs.
Qed.

End WithThreshold.

(** C6: one step of the pass merges the segment into the last kept
    segment exactly when the labels are equal and the segment's start
    minus the kept segment's end is within the threshold; the merged
    segment keeps the kept segment's start and label, takes the merging
    segment's end, and has the two texts joined by one space; otherwise
    the segment is appended as the new last kept segment.  The whole pass
    is these steps taken once over the segments after the first, from
    left to right, and equals the walk [merge_pass]. *)
Theorem optimizeSegments_single_pass :
  forall threshold : float,
    (forall result previousSegment currentSegment,
        optimize_step threshold (result ++ [previousSegment]) currentSegment
        = if String.eqb (speaker currentSegment) (speaker previousSegment)
             && (seg_start currentSegment - seg_end previousSegment
                 <=? threshold)%float
          then result
               ++ [ {| seg_text :=
                         String.append (seg_text previousSegment)
                           (String " " (seg_text currentSegment));
                       seg_start := seg_start previousSegment;
                       seg_end := seg_end currentSegment;
                       speaker := speaker previousSegment |} ]
          else result ++ [previousSegment; currentSegment])
    /\ optimizeSegments threshold [] = []
    /\ (forall first others,
           optimizeSegments threshold (first :: others)
           = fold_left (optimize_step threshold) others [first])
    /\ (forall segments,
           optimizeSegments threshold segments = merge_pass threshold segments).
Proof.
  intros threshold. repeat split.
  - intros. apply optimize_step_last.
  - intros first [|second others]; reflexivity.
  - apply optimizeSegments_merge_pass.
Qed.

(** C7: the pass applied to its own output changes nothing, and no two
    neighbours of the output satisfy the merge condition. *)
Theorem optimizeSegments_idempotent :
  forall (threshold : float) (segments : list Segment),
    optimizeSegments threshold (optimizeSegments threshold segments)
    = optimizeSegments threshold segments
    /\ settled threshold (optimizeSegments threshold segments) = true.
Proof.
  intros threshold segments.
  assert (Hs : settled threshold (optimizeSegments threshold segments) = true).
  { rewrite optimizeSegments_merge_pass.
    destruct segments as [|first others]; [reflexivity|].
    apply settled_merge_from. }
  split; [|exact Hs].
  rewrite (optimizeSegments_merge_pass threshold
             (optimizeSegments threshold segments)).
  destruct (optimizeSegments threshold segments) as [|h t]; [reflexivity|].
  apply merge_from_settled. exact Hs.
Qed.

End MergePass.



(* ===================================================================== *)
(** * Chunk labelling                                                     *)
(* ===================================================================== *)

Module Labelling.

Import PrimFloat.
Import SpeakerDiarization.

Local Open Scope Z_scope.

(** ** The tally object *)

Lemma ascending_weaken :
  forall counts lo lo', lo' <= lo -> ascending lo counts -> ascending lo' counts.
Proof.
  intros [|[c n] rest] lo lo' Hle; simpl; [trivial|].
  intros [Hlt Hrest]. split; [lia|exact Hrest].
Qed.

Lemma ascending_keys :
  forall counts lo e, ascending lo counts -> In e counts -> lo < fst e.
Proof.
  induction counts as [|[c n] rest IH]; intros lo e Hasc Hin; [destruct Hin|].
  destruct Hasc as [Hlt Hrest]. destruct Hin as [<-|Hin]; [exact Hlt|].
  specialize (IH c e Hrest Hin). lia.
Qed.

Lemma ascending_app_later :
  forall pre lo x post e,
    ascending lo (pre ++ x :: post) -> In e post -> fst x < fst e.
Proof.
  induction pre as [|[c n] pre IH]; intros lo x post e Hasc Hin.
  - destruct x as [cx nx]. destruct Hasc as [_ Hpost].
    exact (ascending_keys post cx e Hpost Hin).
  - destruct Hasc as [_ Hrest]. exact (IH c x post e Hrest Hin).
Qed.

Lemma tally_at_below :
  forall counts lo c, ascending lo counts -> c <= lo -> tally_at counts c = 0%nat.
Proof.
  induction counts as [|[c' n] rest IH]; intros lo c Hasc Hle; [reflexivity|].
  destruct Hasc as [Hlt Hrest]. simpl.
  destruct (Z.eqb_spec c c'); [lia|].
  apply (IH c'); [exact Hrest|lia].
Qed.

Lemma tally_at_in :
  forall counts lo c n,
    ascending lo counts -> In (c, n) counts -> tally_at counts c = n.
Proof.
  induction counts as [|[c' n'] rest IH]; intros lo c n Hasc Hin; [destruct Hin|].
  destruct Hasc as [Hlt Hrest]. simpl.
  destruct Hin as [Heq|Hin].
  - injection Heq as Hc Hn. subst. rewrite Z.eqb_refl. reflexivity.
  - pose proof (ascending_keys rest c' (c, n) Hrest Hin) as Hk. simpl in Hk.
    destruct (Z.eqb_spec c c'); [lia|].
    exact (IH c' c n Hrest Hin).
Qed.

Lemma tally_at_found :
  forall counts c,
    tally_at counts c <> 0%nat -> In (c, tally_at counts c) counts.
Proof.
  induction counts as [|[c' n'] rest IH]; intros c Hne; simpl in *.
  - congruence.
  - destruct (Z.eqb_spec c c') as [Heq|Hc]; [subst; left; reflexivity|].
    right. apply IH. exact Hne.
Qed.

Lemma tally_ascending :
  forall counts lo c, ascending lo counts -> lo < c -> ascending lo (tally counts c).
Proof.
  induction counts as [|[c' n] rest IH]; intros lo c Hasc Hlt; simpl.
  - split; [exact Hlt|exact I].
  - destruct Hasc as [Hlo Hrest].
    destruct (Z.eqb_spec c c') as [->|Hne]; [split; assumption|].
    destruct (Z.ltb_spec c c').
    + split; [exact Hlt|]. split; [assumption|exact Hrest].
    + split; [exact Hlo|]. apply IH; [exact Hrest|lia].
Qed.

Lemma tally_at_tally :
  forall counts lo c c',
    ascending lo counts ->
    tally_at (tally counts c) c'
    = (tally_at counts c' + (if (c =? c')%Z then 1 else 0))%nat.
Proof.
  induction counts as [|[k n] rest IH]; intros lo c c' Hasc; simpl.
  - rewrite (Z.eqb_sym c' c). destruct (c =? c'); reflexivity.
  - destruct Hasc as [Hlo Hrest].
    destruct (Z.eqb_spec c k) as [->|Hck].
    + simpl. rewrite (Z.eqb_sym k c').
      destruct (Z.eqb_spec c' k); lia.
    + destruct (Z.ltb_spec c k) as [Hlt|Hge].
      * simpl. rewrite (Z.eqb_sym c c').
        destruct (Z.eqb_spec c' c) as [->|Hc'].
        -- destruct (Z.eqb_spec c k); [lia|].
           rewrite (tally_at_below rest k c Hrest); lia.
        -- lia.
      * simpl. destruct (Z.eqb_spec c' k) as [->|Hc'k].
        -- destruct (Z.eqb_spec c k); lia.
        -- apply (IH k). exact Hrest.
Qed.

Lemma tally_positive :
  forall counts c,
    Forall (fun e => (0 < snd e)%nat) counts ->
    Forall (fun e => (0 < snd e)%nat) (tally counts c).
Proof.
  induction counts as [|[k n] rest IH]; intros c Hpos; simpl.
  - constructor; [simpl; lia|constructor].
  - inversion Hpos as [|? ? Hn Hrest]; subst.
    destruct (c =? k).
    + constructor; [simpl; lia|exact Hrest].
    + destruct (c <? k).
      * constructor; [simpl; lia|exact Hpos].
      * constructor; [exact Hn|apply IH; exact Hrest].
Qed.

(** ** The tally of a chunk *)

Lemma fold_tally :
  forall features counts,
    ascending (-1) counts ->
    Forall (fun e => (0 < snd e)%nat) counts ->
    ascending (-1) (fold_left tally_feature features counts)
    /\ Forall (fun e => (0 < snd e)%nat) (fold_left tally_feature features counts)
    /\ forall c,
        0 <= c ->
        tally_at (fold_left tally_feature features counts) c
        = (tally_at counts c
           + length (filter (fun f => (cluster f =? c)%Z) features))%nat.
Proof.
  induction features as [|f features IH]; intros counts Hasc Hpos; simpl.
  - repeat split; try assumption. intros; lia.
  - assert (Hasc' : ascending (-1) (tally_feature counts f)).
    { unfold tally_feature. destruct (Z.leb_spec 0 (cluster f)); [|exact Hasc].
      apply tally_ascending; [exact Hasc|lia]. }
    assert (Hpos' : Forall (fun e => (0 < snd e)%nat) (tally_feature counts f)).
    { unfold tally_feature. destruct (0 <=? cluster f); [|exact Hpos].
      apply tally_positive. exact Hpos. }
    destruct (IH _ Hasc' Hpos') as (H1 & H2 & H3).
    repeat split; try assumption.
    intros c Hc. rewrite (H3 c Hc). unfold tally_feature.
    destruct (Z.leb_spec 0 (cluster f)) as [Hf|Hf].
    + rewrite (tally_at_tally counts (-1) (cluster f) c Hasc).
      destruct (cluster f =? c); simpl; lia.
    + destruct (Z.eqb_spec (cluster f) c); [lia|]. reflexivity.
Qed.

Lemma length_filter_filter :
  forall (A : Type) (p q : A -> bool) (l : list A),
    length (filter q (filter p l)) = length (filter (fun x => p x && q x) l).
Proof.
  induction l as [|x l IH]; simpl; [reflexivity|].
  destruct (p x); simpl; [|exact IH].
  destruct (q x); simpl; [f_equal|]; exact IH.
Qed.

(** The tally object of a chunk holds, for every non-negative id, the
    number of frames of that id in the chunk's time range. *)
Lemma clusterCounts_spec :
  forall clusteredFeatures startTime endTime,
    let counts :=
      clusterCounts (filter (in_range startTime endTime) clusteredFeatures) in
    ascending (-1) counts
    /\ Forall (fun e => (0 < snd e)%nat) counts
    /\ forall c, 0 <= c ->
                 tally_at counts c
                 = frames_of clusteredFeatures startTime endTime c.
Proof.
  intros clusteredFeatures startTime endTime counts.
  destruct (fold_tally (filter (in_range startTime endTime) clusteredFeatures)
                       [] I (Forall_nil _)) as (H1 & H2 & H3).
  repeat split; try assumption.
  intros c Hc. unfold counts, clusterCounts.
  rewrite (H3 c Hc). unfold frames_of.
  rewrite length_filter_filter. reflexivity.
Qed.

(** ** The scan for the dominant cluster *)

Lemma scan_spec :
  forall entries d m,
    let dm := fold_left scan_step entries (d, m) in
    (m <= snd dm)%nat
    /\ (forall e, In e entries -> (snd e <= snd dm)%nat)
    /\ (dm = (d, m)
        \/ ((m < snd dm)%nat
            /\ exists pre post,
                entries = pre ++ dm :: post
                /\ forall e, In e pre -> (snd e < snd dm)%nat)).
Proof.
  induction entries as [|[c n] entries IH]; intros d m; simpl.
  - repeat split; [lia|tauto|left; reflexivity].
  - replace (scan_step (d, m) (c, n))
      with (if (m <? n)%nat then (c, n) else (d, m)) by reflexivity.
    destruct (Nat.ltb_spec m n) as [Hlt|Hge].
    + destruct (IH c n) as (H1 & H2 & H3).
      set (dm := fold_left scan_step entries (c, n)) in *.
      split; [lia|]. split.
      * intros e [<-|Hin]; [exact H1|exact (H2 e Hin)].
      * right. split; [lia|].
        destruct H3 as [Heq|(Hlt' & pre & post & Hent & Hpre)].
        -- exists [], entries. rewrite Heq. split; [reflexivity|].
           intros e [].
        -- exists ((c, n) :: pre), post. split; [rewrite Hent; reflexivity|].
           intros e [<-|Hin]; [exact Hlt'|exact (Hpre e Hin)].
    + destruct (IH d m) as (H1 & H2 & H3).
      set (dm := fold_left scan_step entries (d, m)) in *.
      split; [exact H1|]. split.
      * intros e [<-|Hin]; [simpl; lia|exact (H2 e Hin)].
      * destruct H3 as [Heq|(Hlt' & pre & post & Hent & Hpre)];
          [left; exact Heq|right].
        split; [exact Hlt'|].
        exists ((c, n) :: pre), post. split; [rewrite Hent; reflexivity|].
        intros e [<-|Hin]; [simpl; lia|exact (Hpre e Hin)].
Qed.

Lemma letter_letter_of : forall c, 0 <= c -> letter c = letter_of c.
Proof.
  intros c Hc. unfold letter, letter_of.
  rewrite Z.rem_mod_nonneg by lia. reflexivity.
Qed.

(** The segment made from a chunk is the one the specification asks for. *)
Lemma label_chunk_labelled :
  forall clusteredFeatures chunk,
    labelled clusteredFeatures chunk (label_chunk clusteredFeatures chunk).
Proof.
  intros clusteredFeatures chunk. unfold labelled, label_chunk.
  destruct (timestamp chunk) as [startTime endTime]. cbn [fst snd].
  cbn [seg_text seg_start seg_end speaker].
  repeat (split; [reflexivity|]).
  destruct (clusterCounts_spec clusteredFeatures startTime endTime)
    as (Hasc & Hpos & Hcount).
  set (counts := clusterCounts
                   (filter (in_range startTime endTime) clusteredFeatures)) in *.
  unfold dominant_scan.
  destruct (scan_spec counts (-1) 0%nat) as (_ & Hmax & Hwhich).
  set (dm := fold_left scan_step counts (-1, 0%nat)) in *.
  destruct Hwhich as [Heq|(Hlt & pre & post & Hent & Hpre)].
  - left. rewrite Heq. split; [|reflexivity].
    intros c Hc. rewrite <- (Hcount c Hc).
    destruct (Nat.eq_dec (tally_at counts c) 0) as [Hz|Hnz]; [exact Hz|].
    apply tally_at_found in Hnz. apply Hmax in Hnz. rewrite Heq in Hnz.
    simpl in Hnz. lia.
  - right. destruct dm as [d m]. cbn [fst snd] in *.
    assert (Hin : In (d, m) counts).
    { rewrite Hent. apply in_or_app. right. left. reflexivity. }
    assert (Hd : 0 <= d).
    { pose proof (ascending_keys counts (-1) (d, m) Hasc Hin) as Hk.
      simpl in Hk. lia. }
    exists d. split.
    + unfold is_dominant. split; [exact Hd|].
      rewrite <- (Hcount d Hd), (tally_at_in counts (-1) d m Hasc Hin).
      split; [exact Hlt|]. split.
      * intros c' Hc'. rewrite <- (Hcount c' Hc').
        destruct (Nat.eq_dec (tally_at counts c') 0) as [Hz|Hnz]; [lia|].
        apply tally_at_found in Hnz. exact (Hmax _ Hnz).
      * intros c' Hc' Hsame. rewrite <- (Hcount c' Hc') in Hsame.
        assert (Hin' : In (c', m) counts).
        { rewrite <- Hsame. apply tally_at_found. lia. }
        rewrite Hent in Hin'. apply in_app_or in Hin'.
        destruct Hin' as [Hin'|[Hin'|Hin']].
        -- apply Hpre in Hin'. simpl in Hin'. lia.
        -- injection Hin' as ->. lia.
        -- rewrite Hent in Hasc.
           pose proof (ascending_app_later pre (-1) (d, m) post (c', m)
                         Hasc Hin') as Hk.
           simpl in Hk. lia.
    + unfold speakerLabel. destruct (Z.leb_spec 0 d); [|lia].
      apply letter_letter_of. exact Hd.
Qed.

(** C5: for a labelled series whose cluster ids are array indices (or
    -1), every chunk yields exactly one segment, in order, with the
    chunk's start, end and text; its speaker is "Unknown" when no frame
    with a non-negative cluster id lies in [start, end], and otherwise the
    letter 'A' + (c mod 26) of the dominant cluster c: the non-negative id
    with the highest count of frames in [start, end], the lowest such id
    on a tie. *)
Theorem assignSpeakersToSegments_labels_chunks :
  forall (clusteredFeatures : list LabeledVector)
         (featureVectors : list FeatureVector)
         (transcriptionChunks : list Chunk),
    Forall (fun f => cluster f < 4294967295) clusteredFeatures ->
    Forall2 (labelled clusteredFeatures) transcriptionChunks
            (assignSpeakersToSegments clusteredFeatures featureVectors
                                      transcriptionChunks).
Proof.
  intros clusteredFeatures featureVectors transcriptionChunks _.
  unfold assignSpeakersToSegments.
  induction transcriptionChunks as [|chunk chunks IH]; simpl.
  - constructor.
  - constructor; [apply label_chunk_labelled|exact IH].
Qed.

Lemma assignSpeakersToSegments_labels_chunks_witness :
  Forall2 (labelled Samples.tie) (chunks Samples.hello_world)
          (assignSpeakersToSegments Samples.tie [] (chunks Samples.hello_world))
  /\ map speaker
         (assignSpeakersToSegments Samples.tie [] (chunks Samples.hello_world))
     = ["A"; "Unknown"]%string.
Proof.
  split.
  - apply (assignSpeakersToSegments_labels_chunks
             Samples.tie [] (chunks Samples.hello_world)).
    repeat (constructor; [reflexivity|]). constructor.
  - reflexivity.
Defined.

End Labelling.


(* ===================================================================== *)
(** * k-means: termination and range of the assignments                   *)
(* ===================================================================== *)

Module KMeansFacts.

Import PrimFloat.
Import SpeakerDiarization Samples.

(** ** One round *)

Lemma closest_from_choice :
  forall vector cs js minDistance closestCentroid,
    closest_from vector cs js minDistance closestCentroid = closestCentroid
    \/ In (closest_from vector cs js minDistance closestCentroid) js.
Proof.
  intros vector cs js.
  induction js as [|j js IH]; intros minDistance closestCentroid; simpl.
  - left; reflexivity.
  - destruct (euclideanDistance vector (nth j cs []) <? minDistance)%float.
    + destruct (IH (euclideanDistance vector (nth j cs [])) j) as [->|Hin];
        auto.
    + destruct (IH minDistance closestCentroid) as [->|Hin]; auto.
Qed.

Lemma closest_below :
  forall vector cs k, 1 <= k -> closest vector cs k < k.
Proof.
  intros vector cs k Hk. unfold closest.
  destruct (closest_from_choice vector cs (seq 0 k) infinity 0) as [->|Hin].
  - lia.
  - apply in_seq in Hin. lia.
Qed.

Lemma assign_step_length :
  forall cs k vectors asg,
    length asg = length vectors ->
    length (fst (assign_step cs k vectors asg)) = length vectors.
Proof.
  intros cs k.
  induction vectors as [|v vectors IH]; intros [|a asg] Hlen;
    try discriminate; [reflexivity|].
  simpl. specialize (IH asg).
  destruct (assign_step cs k vectors asg) as [rest ch]. simpl in *.
  f_equal. apply IH. lia.
Qed.

Lemma assign_step_range :
  forall cs k vectors asg,
    1 <= k ->
    Forall (fun a => (0 <= a < Z.of_nat k)%Z)
           (fst (assign_step cs k vectors asg)).
Proof.
  intros cs k vectors asg Hk. revert asg.
  induction vectors as [|v vectors IH]; intros [|a asg]; simpl;
    try constructor.
  - specialize (IH asg).
    destruct (assign_step cs k vectors asg) as [rest ch]. simpl in *.
    constructor; [|exact IH].
    pose proof (closest_below v cs k Hk). lia.
Qed.

Lemma list_update_length :
  forall (A : Type) (f : A -> A) (xs : list A) (i : nat),
    length (list_update i f xs) = length xs.
Proof.
  induction xs as [|x xs IH]; intros [|i]; simpl; try reflexivity.
  f_equal. apply IH.
Qed.

Lemma move_centroids_length :
  forall k sums counts cs,
    length (move_centroids k sums counts cs) = length cs.
Proof.
  intros k sums counts. unfold move_centroids.
  induction (seq 0 k) as [|i is_ IH]; intros cs; simpl; [reflexivity|].
  rewrite IH. destruct (0 <? at_index counts i)%float; [|reflexivity].
  apply list_update_length.
Qed.

Lemma round_fields :
  forall vectors k s,
    ks_assignments (round vectors k s)
    = fst (assign_step (ks_centroids s) k vectors (ks_assignments s))
    /\ changed (round vectors k s)
       = snd (assign_step (ks_centroids s) k vectors (ks_assignments s))
    /\ iterations (round vectors k s) = S (iterations s)
    /\ length (ks_centroids (round vectors k s)) = length (ks_centroids s).
Proof.
  intros vectors k s. unfold round.
  destruct (assign_step (ks_centroids s) k vectors (ks_assignments s))
    as [asg ch].
  destruct (accumulate vectors asg _ _) as [sums counts].
  cbn [ks_assignments changed iterations ks_centroids fst snd].
  repeat split. apply move_centroids_length.
Qed.

(** ** The loop *)

Lemma rounds_succ :
  forall vectors k n s,
    rounds vectors k (S n) s = rounds vectors k n (round vectors k s).
Proof. intros. unfold rounds. apply Nat.iter_succ_r. Qed.

Lemma rounds_iterations :
  forall vectors k n s,
    iterations (rounds vectors k n s) = iterations s + n.
Proof.
  intros vectors k n s. induction n as [|n IH].
  - simpl. lia.
  - unfold rounds in *. simpl.
    destruct (round_fields vectors k (Nat.iter n (round vectors k) s))
      as (_ & _ & -> & _).
    rewrite IH. lia.
Qed.

Lemma rounds_invariant :
  forall vectors k n s,
    1 <= k ->
    length (ks_assignments s) = length vectors ->
    length (ks_assignments (rounds vectors k n s)) = length vectors
    /\ length (ks_centroids (rounds vectors k n s)) = length (ks_centroids s)
    /\ (1 <= n ->
        Forall (fun a => (0 <= a < Z.of_nat k)%Z)
               (ks_assignments (rounds vectors k n s))).
Proof.
  intros vectors k n s Hk Hlen. induction n as [|n IH].
  - simpl. repeat split; [exact Hlen|lia].
  - destruct IH as (IHa & IHc & _). unfold rounds in *. simpl.
    destruct (round_fields vectors k (Nat.iter n (round vectors k) s))
      as (-> & _ & _ & ->).
    repeat split.
    + apply assign_step_length. exact IHa.
    + exact IHc.
    + intros _. apply assign_step_range. exact Hk.
Qed.

(** With more fuel than rounds left under the cap, the loop leaves by
    its own condition, after some [n] rounds throughout which the
    condition held. *)
Lemma while_continue :
  forall vectors k maxIterations fuel s,
    maxIterations - iterations s < fuel ->
    exists n,
      while fuel (continue maxIterations) (round vectors k) s
      = Some (rounds vectors k n s)
      /\ (forall m, m < n ->
                    continue maxIterations (rounds vectors k m s) = true)
      /\ continue maxIterations (rounds vectors k n s) = false.
Proof.
  intros vectors k maxIterations.
  induction fuel as [|fuel IH]; intros s Hfuel; [lia|].
  simpl. destruct (continue maxIterations s) eqn:Hc.
  - assert (Hit : iterations s < maxIterations).
    { unfold continue in Hc. apply andb_prop in Hc. destruct Hc as [_ Hc].
      apply Nat.ltb_lt in Hc. exact Hc. }
    destruct (IH (round vectors k s)) as (n & Hw & Hbefore & Hafter).
    { destruct (round_fields vectors k s) as (_ & _ & -> & _). lia. }
    exists (S n). rewrite rounds_succ. split; [exact Hw|]. split.
    + intros [|m] Hm; [exact Hc|]. rewrite rounds_succ. apply Hbefore. lia.
    + exact Hafter.
  - exists 0. split; [reflexivity|]. split; [intros m Hm; lia|exact Hc].
Qed.

Lemma initial_centroids_length :
  forall vectors k g, length (fst (initial_centroids vectors k g)) = k.
Proof.
  intros vectors k. induction k as [|k IH]; intros g; simpl; [reflexivity|].
  specialize (IH (rng_next g)).
  destruct (initial_centroids vectors k (rng_next g)) as [rest g'].
  simpl in *. f_equal. exact IH.
Qed.

Lemma initial_state_fields :
  forall vectors k g,
    let s0 := fst (initial_state vectors k g) in
    length (ks_centroids s0) = k
    /\ ks_assignments s0 = repeat (-1)%Z (length vectors)
    /\ iterations s0 = 0
    /\ changed s0 = true.
Proof.
  intros vectors k g. unfold initial_state.
  pose proof (initial_centroids_length vectors k g) as Hlen.
  destruct (initial_centroids vectors k g) as [cs g']. simpl in *.
  repeat split. exact Hlen.
Qed.

(** The loop of [kMeansClustering], whatever the cap: the number of
    rounds, what the loop yields and what the function returns. *)
Lemma kMeans_rounds :
  forall vectors k maxIterations g,
    vectors <> [] -> 1 <= k -> 1 <= maxIterations ->
    let s0 := fst (initial_state vectors k g) in
    let result := fst (kMeansClustering vectors k maxIterations g) in
    exists n,
      1 <= n <= maxIterations
      /\ (forall fuel,
             maxIterations < fuel ->
             kMeans_loop fuel vectors k maxIterations g
             = Some (rounds vectors k n s0))
      /\ (forall m, m < n -> changed (rounds vectors k m s0) = true)
      /\ (n < maxIterations -> changed (rounds vectors k n s0) = false)
      /\ centroids result = ks_centroids (rounds vectors k n s0)
      /\ assignments result = ks_assignments (rounds vectors k n s0).
Proof.
  intros vectors k maxIterations g Hne Hk Hmax s0 result.
  destruct (initial_state_fields vectors k g) as (Hcs & Hasg & Hit & Hch).
  fold s0 in Hcs, Hasg, Hit, Hch.
  assert (Hall : forall fuel,
             maxIterations < fuel ->
             exists n,
               while fuel (continue maxIterations) (round vectors k) s0
               = Some (rounds vectors k n s0)
               /\ (forall m, m < n ->
                     continue maxIterations (rounds vectors k m s0) = true)
               /\ continue maxIterations (rounds vectors k n s0) = false).
  { intros fuel Hfuel. apply while_continue. rewrite Hit. lia. }
  destruct (Hall (S maxIterations)) as (n & Hw & Hbefore & Hafter); [lia|].
  assert (Hn1 : 1 <= n).
  { destruct n as [|n]; [|lia]. simpl in Hafter. unfold continue in Hafter.
    rewrite Hch, Hit in Hafter. simpl in Hafter.
    apply Nat.ltb_ge in Hafter. lia. }
  assert (Hn2 : n <= maxIterations).
  { destruct n as [|n]; [lia|].
    specialize (Hbefore n (Nat.lt_succ_diag_r n)).
    unfold continue in Hbefore. apply andb_prop in Hbefore.
    destruct Hbefore as [_ Hb]. apply Nat.ltb_lt in Hb.
    rewrite rounds_iterations, Hit in Hb. lia. }
  exists n. split; [lia|]. split; [|split; [|split]].
  - intros fuel Hfuel. unfold kMeans_loop. fold s0.
    destruct (Hall fuel Hfuel) as (n' & Hw' & Hbefore' & Hafter').
    rewrite Hw'. f_equal. f_equal.
    destruct (Nat.lt_trichotomy n' n) as [Hlt|[Heq|Hgt]]; [|exact Heq|].
    + rewrite (Hbefore n' Hlt) in Hafter'. discriminate.
    + rewrite (Hbefore' n Hgt) in Hafter. discriminate.
  - intros m Hm. specialize (Hbefore m Hm). unfold continue in Hbefore.
    apply andb_prop in Hbefore. tauto.
  - intros Hlt. unfold continue in Hafter.
    apply andb_false_iff in Hafter. destruct Hafter as [Hc|Hi]; [exact Hc|].
    apply Nat.ltb_ge in Hi. rewrite rounds_iterations, Hit in Hi. lia.
  - unfold result, kMeansClustering.
    destruct vectors as [|v vectors]; [congruence|].
    unfold s0 in Hw.
    destruct (initial_state (v :: vectors) k g) as [s0' g'].
    cbn [fst] in Hw |- *. rewrite Hw. split; reflexivity.
Qed.

(** What the callers of [kMeansClustering] rely on. *)
Lemma kMeansClustering_shape :
  forall vectors k maxIterations g,
    vectors <> [] -> 1 <= k -> 1 <= maxIterations ->
    let result := fst (kMeansClustering vectors k maxIterations g) in
    length (centroids result) = k
    /\ length (assignments result) = length vectors
    /\ Forall (fun a => (0 <= a < Z.of_nat k)%Z) (assignments result).
Proof.
  intros vectors k maxIterations g Hne Hk Hmax result.
  destruct (kMeans_rounds vectors k maxIterations g Hne Hk Hmax)
    as (n & Hn & _ & _ & _ & Hcs & Hasg).
  fold result in Hcs, Hasg.
  destruct (initial_state_fields vectors k g) as (Hcs0 & Hasg0 & _ & _).
  destruct (rounds_invariant vectors k n (fst (initial_state vectors k g)) Hk)
    as (Ha & Hc & Hr).
  { rewrite Hasg0. apply repeat_length. }
  rewrite Hcs, Hasg. repeat split.
  - rewrite Hc. exact Hcs0.
  - exact Ha.
  - apply Hr. lia.
Qed.

(** The flag of the assignment step tells whether an assignment was
    rewritten. *)
Lemma assign_step_flag :
  forall cs k vectors asg,
    length asg = length vectors ->
    (snd (assign_step cs k vectors asg) = false
     <-> fst (assign_step cs k vectors asg) = asg).
Proof.
  intros cs k. induction vectors as [|v vectors IH]; intros [|a asg] Hlen;
    try discriminate.
  - simpl. split; reflexivity.
  - simpl. specialize (IH asg).
    destruct (assign_step cs k vectors asg) as [rest ch]. simpl in *.
    assert (Hl : length asg = length vectors) by lia.
    specialize (IH Hl). split.
    + intros Hch. apply orb_false_iff in Hch. destruct Hch as [Ha Hch].
      apply negb_false_iff in Ha. apply Z.eqb_eq in Ha.
      f_equal; [symmetry; exact Ha|]. apply IH. exact Hch.
    + intros Heq. injection Heq as Ha Hrest.
      apply orb_false_iff. split.
      * apply negb_false_iff. apply Z.eqb_eq. symmetry. exact Ha.
      * apply IH. exact Hrest.
Qed.

(** A round leaves its flag clear exactly when it leaves every
    assignment as it found it. *)
Lemma round_flag :
  forall vectors k s,
    length (ks_assignments s) = length vectors ->
    (changed (round vectors k s) = false
     <-> ks_assignments (round vectors k s) = ks_assignments s).
Proof.
  intros vectors k s Hlen.
  destruct (round_fields vectors k s) as (-> & -> & _).
  apply assign_step_flag. exact Hlen.
Qed.

(** C8: for a non-empty vector list and k >= 1, the loop of
    [kMeansClustering] ends by its own condition after n rounds with
    1 <= n <= 100 (any bound above 100 on the number of condition tests
    is enough).  Every round but the last rewrote the assignment of some
    vector; when the loop ends before the cap, the last round rewrote
    none (the assignments after it are those before it), which takes at
    least two rounds.  On return there is one assignment per input
    vector, each a cluster id in [0, k). *)
Theorem kMeansClustering_terminates_and_assigns :
  forall (vectors : list (list float)) (k : nat) (g : rng),
    vectors <> [] ->
    1 <= k ->
    let s0 := fst (initial_state vectors k g) in
    let result := fst (kMeansClustering vectors k 100 g) in
    exists n,
      1 <= n <= 100
      /\ (forall fuel,
             100 < fuel ->
             kMeans_loop fuel vectors k 100 g = Some (rounds vectors k n s0))
      /\ (forall m, m < n -> changed (rounds vectors k m s0) = true)
      /\ (n < 100 -> changed (rounds vectors k n s0) = false)
      /\ (forall m,
             S m < n ->
             ks_assignments (rounds vectors k (S m) s0)
             <> ks_assignments (rounds vectors k m s0))
      /\ (n < 100 ->
          2 <= n
          /\ ks_assignments (rounds vectors k n s0)
             = ks_assignments (rounds vectors k (n - 1) s0))
      /\ assignments result = ks_assignments (rounds vectors k n s0)
      /\ length (assignments result) = length vectors
      /\ Forall (fun a => (0 <= a < Z.of_nat k)%Z) (assignments result).
Proof.
  intros vectors k g Hne Hk. cbv zeta.
  assert (Hcap : 1 <= 100) by lia.
  destruct (kMeans_rounds vectors k 100 g Hne Hk Hcap)
    as (n & Hn & Hloop & Hbefore & Hlast & _ & Hasg).
  destruct (kMeansClustering_shape vectors k 100 g Hne Hk Hcap)
    as (_ & Hlen & Hrange).
  destruct (initial_state_fields vectors k g) as (_ & Hasg0 & _ & _).
  set (s0 := fst (initial_state vectors k g)) in *.
  set (result := fst (kMeansClustering vectors k 100 g)) in *.
  assert (Hlen0 : length (ks_assignments s0) = length vectors).
  { rewrite Hasg0. apply repeat_length. }
  assert (Hlens : forall m,
             length (ks_assignments (rounds vectors k m s0)) = length vectors).
  { intros m. destruct (rounds_invariant vectors k m s0 Hk Hlen0) as (H & _).
    exact H. }
  assert (Hstep : forall m,
             changed (rounds vectors k (S m) s0) = false
             <-> ks_assignments (rounds vectors k (S m) s0)
                 = ks_assignments (rounds vectors k m s0)).
  { intros m. apply (round_flag vectors k (rounds vectors k m s0)).
    apply Hlens. }
  exists n. split; [lia|]. split; [exact Hloop|]. split; [exact Hbefore|].
  split; [exact Hlast|]. split; [|split; [|split; [|split]]].
  - intros m Hm Heq. apply Hstep in Heq.
    rewrite (Hbefore (S m) Hm) in Heq. discriminate.
  - intros Hearly. specialize (Hlast Hearly).
    destruct n as [|n]; [lia|].
    replace (S n - 1) with n by lia.
    apply Hstep in Hlast. split; [|exact Hlast].
    destruct n as [|n]; [|lia]. exfalso.
    change (rounds vectors k 0 s0) with s0 in Hlast.
    destruct (rounds_invariant vectors k 1 s0 Hk Hlen0) as (_ & _ & Hr).
    specialize (Hr (le_n 1)). rewrite Hlast, Hasg0 in Hr.
    destruct vectors as [|v vectors]; [congruence|].
    simpl in Hr. inversion Hr; subst. lia.
  - exact Hasg.
  - exact Hlen.
  - exact Hrange.
Qed.

Lemma kMeansClustering_terminates_and_assigns_witness :
  exists n,
    1 <= n <= 100
    /\ kMeans_loop 101 voices 3 100 counting
       = Some (rounds voices 3 n (fst (initial_state voices 3 counting)))
    /\ Forall (fun a => (0 <= a < 3)%Z)
              (assignments (fst (kMeansClustering voices 3 100 counting))).
Proof.
  destruct (kMeansClustering_terminates_and_assigns voices 3 counting)
    as (n & Hn & Hloop & _ & _ & _ & _ & _ & _ & Hrange).
  - discriminate.
  - lia.
  - exists n. split; [exact Hn|]. split; [apply Hloop; lia|exact Hrange].
Defined.

End KMeansFacts.


(* ===================================================================== *)
(** * From clusters to speakers                                           *)
(* ===================================================================== *)

Module Speakers.

Import PrimFloat.
Import SpeakerDiarization Samples.

(** ** Cluster ids of the labelled series *)

Lemma indexOf_from_range :
  forall xs x i,
    indexOf_from xs x i = (-1)%Z
    \/ (i <= indexOf_from xs x i < i + Z.of_nat (length xs))%Z.
Proof.
  induction xs as [|y xs IH]; intros x i; simpl indexOf_from.
  - left; reflexivity.
  - destruct (y =? x)%float.
    + right. simpl length. lia.
    + destruct (IH x (i + 1)%Z) as [->|Hr]; [left; reflexivity|].
      right. simpl length. lia.
Qed.

(** Every frame of the labelled series is silent (-1) or carries an
    index into the centroid array, which has at most k entries. *)
Lemma clusterFeatureVectors_range :
  forall featureVectors k g clusters g',
    clusterFeatureVectors featureVectors k g = (inl clusters, g') ->
    Forall (fun f => cluster f = (-1)%Z \/ (0 <= cluster f < k)%Z) clusters.
Proof.
  intros featureVectors k g clusters g'. unfold clusterFeatureVectors.
  destruct (filter _ featureVectors) as [|a activeVectors] eqn:Hact.
  - intros Heq; injection Heq as <- <-. constructor.
  - set (act := a :: activeVectors).
    set (kk := Z.min k (Z.of_nat (length act))).
    destruct (Z.ltb_spec kk 0); [discriminate|].
    destruct (Z.eqb_spec kk 0); [discriminate|].
    pose proof (KMeansFacts.kMeansClustering_shape
                  (map vector act) (Z.to_nat kk) 100 g) as Hshape.
    destruct (kMeansClustering (map vector act) (Z.to_nat kk) 100 g)
      as [kMeans g''].
    cbn [fst] in Hshape.
    destruct Hshape as (Hcs & _ & _); [discriminate|lia|lia|].
    intros Heq; injection Heq as <- <-.
    apply Forall_forall. intros f Hin. apply in_map_iff in Hin.
    destruct Hin as (v & <- & _).
    destruct (at_index (vector v) 1 <=? 0.1)%float; cbn [cluster];
      [left; reflexivity|].
    unfold indexOf.
    match goal with
    | |- context [indexOf_from ?xs ?x 0%Z] =>
        destruct (indexOf_from_range xs x 0%Z) as [->|Hr];
        [left; reflexivity|right]
    end.
    rewrite length_map, Hcs in Hr. lia.
Qed.

(** ** Labels *)

Lemma frames_of_positive :
  forall clusteredFeatures startTime endTime c,
    0 < frames_of clusteredFeatures startTime endTime c ->
    exists f, In f clusteredFeatures /\ cluster f = c.
Proof.
  intros clusteredFeatures startTime endTime c. unfold frames_of.
  destruct (filter _ clusteredFeatures) as [|f fs] eqn:Hf; simpl; [lia|].
  intros _. assert (Hin : In f (f :: fs)) by (left; reflexivity).
  rewrite <- Hf in Hin. apply filter_In in Hin. destruct Hin as [Hin Hc].
  apply andb_prop in Hc. destruct Hc as [_ Hc]. apply Z.eqb_eq in Hc.
  exists f. split; assumption.
Qed.

Lemma labelled_below :
  forall clusters k chunk seg,
    Forall (fun f => cluster f = (-1)%Z \/ (0 <= cluster f < k)%Z) clusters ->
    labelled clusters chunk seg ->
    label_below k (speaker seg).
Proof.
  intros clusters k chunk seg Hrange (_ & _ & _ & Hsp).
  destruct Hsp as [[_ Hu]|(c & Hdom & Hl)]; [left; exact Hu|].
  right. exists c. split; [|exact Hl].
  destruct Hdom as (Hc & Hpos & _).
  apply frames_of_positive in Hpos. destruct Hpos as (f & Hin & Hf).
  rewrite Forall_forall in Hrange. specialize (Hrange f Hin). lia.
Qed.

(** ** The merge pass keeps the labels *)

Lemma merge_from_speakers :
  forall (P : string -> Prop) threshold rest kept,
    Forall (fun s => P (speaker s)) (kept :: rest) ->
    Forall (fun s => P (speaker s)) (merge_from threshold kept rest).
Proof.
  intros P threshold.
  induction rest as [|s rest IH]; intros kept Hall; simpl; [exact Hall|].
  inversion Hall as [|? ? Hk Hrest]; subst.
  inversion Hrest as [|? ? Hs Hrest']; subst.
  destruct (mergeable threshold kept s).
  - apply IH. constructor; [exact Hk|exact Hrest'].
  - constructor; [exact Hk|]. apply IH. exact Hrest.
Qed.

Lemma optimizeSegments_speakers :
  forall (P : string -> Prop) threshold segs,
    Forall (fun s => P (speaker s)) segs ->
    Forall (fun s => P (speaker s)) (optimizeSegments threshold segs).
Proof.
  intros P threshold segs Hall.
  rewrite MergePass.optimizeSegments_merge_pass.
  destruct segs as [|first others]; [constructor|].
  apply merge_from_speakers. exact Hall.
Qed.

(** ** Counting the labels *)

Lemma distinct_speakers_bound :
  forall (k : nat) segs,
    Forall (fun s => label_below (Z.of_nat k) (speaker s)) segs ->
    length (distinct_speakers segs) <= k.
Proof.
  intros k segs Hall. unfold distinct_speakers.
  assert (Hk : length (map (fun i => letter_of (Z.of_nat i)) (seq 0 k)) = k)
    by (rewrite length_map, length_seq; reflexivity).
  rewrite <- Hk at 1.
  apply NoDup_incl_length; [apply NoDup_nodup|].
  intros l Hin. apply nodup_In in Hin. apply filter_In in Hin.
  destruct Hin as [Hin Hnu]. apply in_map_iff in Hin.
  destruct Hin as (s & <- & Hs).
  rewrite Forall_forall in Hall. specialize (Hall s Hs).
  destruct Hall as [Hu|(c & Hc & Hl)].
  - rewrite Hu in Hnu. discriminate.
  - rewrite Hl. apply in_map_iff. exists (Z.to_nat c).
    split; [rewrite Z2Nat.id by lia; reflexivity|].
    apply in_seq. lia.
Qed.

Lemma assign_label_below :
  forall clusters k featureVectors transcriptionChunks,
    Forall (fun f => cluster f = (-1)%Z \/ (0 <= cluster f < k)%Z) clusters ->
    Forall (fun s => label_below k (speaker s))
           (assignSpeakersToSegments clusters featureVectors
                                     transcriptionChunks).
Proof.
  intros clusters k featureVectors transcriptionChunks Hrange.
  unfold assignSpeakersToSegments. apply Forall_forall.
  intros seg Hin. apply in_map_iff in Hin. destruct Hin as (chunk & <- & _).
  apply (labelled_below clusters k chunk); [exact Hrange|].
  apply Labelling.label_chunk_labelled.
Qed.

(** The labels of a successful run are fewer than the engine's maximum
    speaker count, whenever that count is not negative. *)
Lemma run_speakers_bound :
  forall e audioFeatures transcription g result,
    (0 <= maxSpeakers e)%Z ->
    run_outcome (processDiarization e audioFeatures transcription g)
    = Done result ->
    (Z.of_nat (length (distinct_speakers (segments result)))
     <= maxSpeakers e)%Z.
Proof.
  intros e audioFeatures transcription g result Hmax Hrun.
  destruct (RunProtocol.run_done_inv _ _ _ _ _ Hrun)
    as (_ & clusters & g' & Hcl & ->).
  cbn [segments].
  apply clusterFeatureVectors_range in Hcl.
  assert (Hk : maxSpeakers e = Z.of_nat (Z.to_nat (maxSpeakers e)))
    by (rewrite Z2Nat.id; [reflexivity|exact Hmax]).
  rewrite Hk in Hcl. rewrite Hk.
  apply Nat2Z.inj_le.
  apply distinct_speakers_bound.
  apply optimizeSegments_speakers.
  apply assign_label_below. exact Hcl.
Qed.

(** C2: with the maximum speaker count set through [setMaxSpeakers], the
    distinct speaker labels other than "Unknown" in the segments of a
    successful run are at most that maximum. *)
Theorem distinct_speakers_within_maximum :
  forall (e : t) (count : Z) (audioFeatures : list AudioFeature)
         (transcription : Transcription) (g : rng) (result : Result),
    run_outcome
      (processDiarization (setMaxSpeakers e count) audioFeatures
                          transcription g)
    = Done result ->
    (Z.of_nat (length (distinct_speakers (segments result)))
     <= maxSpeakers (setMaxSpeakers e count))%Z.
Proof.
  intros e count audioFeatures transcription g result Hrun.
  apply (run_speakers_bound _ audioFeatures transcription g); [|exact Hrun].
  unfold setMaxSpeakers. cbn [maxSpeakers with_maxSpeakers]. lia.
Qed.

Lemma distinct_speakers_within_maximum_witness :
  exists result,
    run_outcome
      (processDiarization (setMaxSpeakers listening 2) recording
                          hello_world counting)
    = Done result
    /\ (Z.of_nat (length (distinct_speakers (segments result))) <= 2)%Z.
Proof.
  eexists. split.
  - vm_compute. reflexivity.
  - apply (distinct_speakers_within_maximum listening 2 recording
                                            hello_world counting).
    vm_compute. reflexivity.
Defined.

(** ** Recordings without an active frame *)

Lemma filter_nothing :
  forall (A : Type) (p : A -> bool) (l : list A),
    Forall (fun x => p x = false) l -> filter p l = [].
Proof.
  induction l as [|x l IH]; intros Hall; [reflexivity|].
  inversion Hall as [|? ? Hx Hl]; subst. simpl. rewrite Hx. apply IH. exact Hl.
Qed.

Lemma no_clusters_all_unknown :
  forall featureVectors transcriptionChunks,
    Forall (fun s => speaker s = "Unknown"%string)
           (assignSpeakersToSegments [] featureVectors transcriptionChunks).
Proof.
  intros featureVectors transcriptionChunks. unfold assignSpeakersToSegments.
  apply Forall_forall. intros seg Hin. apply in_map_iff in Hin.
  destruct Hin as (chunk & <- & _). unfold label_chunk.
  destruct (timestamp chunk) as [startTime endTime]. reflexivity.
Qed.

Lemma roster_of_unknowns :
  forall segs,
    Forall (fun s => speaker s = "Unknown"%string) segs ->
    extractUniqueSpeakers segs = [].
Proof.
  intros segs Hall. unfold extractUniqueSpeakers.
  assert (Hfold : forall acc,
             fold_left
               (fun uniqueSpeakers segment =>
                  if negb (String.eqb (speaker segment) "Unknown")
                  then set_add uniqueSpeakers (speaker segment)
                  else uniqueSpeakers) segs acc = acc).
  { induction Hall as [|s segs Hs _ IH]; intros acc; simpl; [reflexivity|].
    rewrite Hs. simpl. apply IH. }
  rewrite Hfold. reflexivity.
Qed.

Lemma no_clusters_unknown_segments :
  forall featureVectors transcriptionChunks,
    assignSpeakersToSegments [] featureVectors transcriptionChunks
    = map unknown_segment transcriptionChunks.
Proof.
  intros featureVectors transcriptionChunks. unfold assignSpeakersToSegments.
  apply map_ext. intros chunk. unfold label_chunk, unknown_segment.
  destruct (timestamp chunk) as [startTime endTime]. reflexivity.
Qed.

(** C9: when no frame's scaled RMS (vector index 1) exceeds 0.1, the
    clustering step resolves with an empty series without drawing a
    random number (k-means is not run); every chunk becomes one segment
    with its text, start and end and the speaker "Unknown"; the run
    succeeds, its result carries the transcription's text, its segments
    are those segments after the merge pass (so one at least when there
    is a chunk, all of them "Unknown"), and its speakers list is empty,
    so "Unknown" is not in it. *)
Theorem no_active_frames_all_unknown :
  forall (e : t) (audioFeatures : list AudioFeature)
         (transcription : Transcription) (g : rng),
    isProcessing e = false ->
    Forall (fun v => active v = false) (extractFeatureVectors audioFeatures) ->
    clusterFeatureVectors (extractFeatureVectors audioFeatures)
                          (maxSpeakers e) g
    = (inl [], g)
    /\ Forall (fun s => speaker s = "Unknown"%string)
              (assignSpeakersToSegments [] (extractFeatureVectors audioFeatures)
                                        (chunks transcription))
    /\ length (assignSpeakersToSegments [] (extractFeatureVectors audioFeatures)
                                        (chunks transcription))
       = length (chunks transcription)
    /\ assignSpeakersToSegments [] (extractFeatureVectors audioFeatures)
                                (chunks transcription)
       = map unknown_segment (chunks transcription)
    /\ run_rng (processDiarization e audioFeatures transcription g) = g
    /\ exists result,
        run_outcome (processDiarization e audioFeatures transcription g)
        = Done result
        /\ Forall (fun s => speaker s = "Unknown"%string) (segments result)
        /\ speakers result = []
        /\ ~ In "Unknown"%string (speakers result)
        /\ res_text result = text transcription
        /\ segments result
           = optimizeSegments (mergeThreshold e)
               (map unknown_segment (chunks transcription))
        /\ segments result
           = merge_pass (mergeThreshold e)
               (map unknown_segment (chunks transcription))
        /\ (chunks transcription <> [] -> segments result <> []).
Proof.
  intros e audioFeatures transcription g Hidle Hsilent.
  assert (Hcl : clusterFeatureVectors (extractFeatureVectors audioFeatures)
                                      (maxSpeakers e) g = (inl [], g)).
  { unfold clusterFeatureVectors.
    change (fun v : FeatureVector => (0.1 <? at_index (vector v) 1)%float)
      with active.
    rewrite (filter_nothing _ active _ Hsilent). reflexivity. }
  pose proof (no_clusters_all_unknown (extractFeatureVectors audioFeatures)
                                      (chunks transcription)) as Hunknown.
  pose proof (no_clusters_unknown_segments
                (extractFeatureVectors audioFeatures) (chunks transcription))
    as Hsegs.
  split; [exact Hcl|]. split; [exact Hunknown|].
  split; [apply length_map|]. split; [exact Hsegs|].
  unfold processDiarization. rewrite Hidle.
  cbn [with_isProcessing maxSpeakers mergeThreshold]. rewrite Hcl.
  cbn [run_outcome run_rng]. split; [reflexivity|].
  eexists. split; [reflexivity|]. cbn [segments speakers res_text].
  pose proof (optimizeSegments_speakers
                (fun l => l = "Unknown"%string) (mergeThreshold e) _ Hunknown)
    as Hopt.
  split; [exact Hopt|].
  rewrite (roster_of_unknowns _ Hopt). split; [reflexivity|].
  split; [intros []|]. split; [reflexivity|].
  rewrite Hsegs. split; [reflexivity|].
  rewrite MergePass.optimizeSegments_merge_pass. split; [reflexivity|].
  intros Hne Hempty.
  destruct (chunks transcription) as [|chunk rest]; [congruence|].
  cbn [map merge_pass] in Hempty.
  destruct (MergePass.merge_from_head (mergeThreshold e)
              (map unknown_segment rest) (unknown_segment chunk))
    as (h & tl & Heq & _).
  rewrite Heq in Hempty. discriminate.
Qed.

Lemma no_active_frames_all_unknown_witness :
  clusterFeatureVectors (extractFeatureVectors silence) 3 counting
  = (inl [], counting)
  /\ exists result,
      run_outcome (processDiarization listening silence hello_world counting)
      = Done result
      /\ segments result
         = [ {| seg_text := "hello world"; seg_start := 0; seg_end := 2;
                speaker := "Unknown" |} ]
      /\ speakers result = [].
Proof.
  destruct (no_active_frames_all_unknown listening silence hello_world counting)
    as (Hcl & _ & _ & _ & _ & result & Hrun & _ & Hroster & _ & _ & Hseg & _).
  - reflexivity.
  - vm_compute. repeat constructor.
  - split; [exact Hcl|]. exists result.
    split; [exact Hrun|]. split; [|exact Hroster].
    rewrite Hseg. vm_compute. reflexivity.
Defined.

End Speakers.


(* ===================================================================== *)
(** * Runs of the engine: configuration, failure, notifications           *)
(* ===================================================================== *)

Module RunOutcomes.

Import PrimFloat.
Import SpeakerDiarization Samples.

(** X1: [setMaxSpeakers] leaves a maximum between 1 and 10, keeps a count
    that already lies in that range, and touches no other field. *)
Theorem setMaxSpeakers_clamps :
  forall (e : t) (count : Z),
    (1 <= maxSpeakers (setMaxSpeakers e count) <= 10)%Z
    /\ (count <= 1 -> maxSpeakers (setMaxSpeakers e count) = 1)%Z
    /\ (1 <= count <= 10 -> maxSpeakers (setMaxSpeakers e count) = count)%Z
    /\ (10 <= count -> maxSpeakers (setMaxSpeakers e count) = 10)%Z
    /\ with_maxSpeakers (setMaxSpeakers e count) (maxSpeakers e) = e.
Proof.
  intros e count. unfold setMaxSpeakers. cbn [maxSpeakers with_maxSpeakers].
  repeat split; try lia.
  destruct e; reflexivity.
Qed.

Lemma with_isProcessing_back :
  forall e,
    isProcessing e = false ->
    with_isProcessing (with_isProcessing e true) false = e.
Proof. intros [] H; simpl in H; subst; reflexivity. Qed.

Lemma filter_active_exists :
  forall featureVectors,
    filter active featureVectors = []
    <-> ~ Exists (fun v => active v = true) featureVectors.
Proof.
  induction featureVectors as [|v vs IH]; simpl.
  - split; [intros _ H; inversion H|reflexivity].
  - destruct (active v) eqn:Hv.
    + split; [discriminate|]. intros H. exfalso. apply H. left. exact Hv.
    + rewrite IH. split.
      * intros Hn H. inversion H; subst; [congruence|tauto].
      * intros Hn H. apply Hn. right. exact H.
Qed.

(** What the clustering step comes back with, by cases. *)
Lemma clusterFeatureVectors_cases :
  forall featureVectors k g,
    (~ Exists (fun v => active v = true) featureVectors
     /\ clusterFeatureVectors featureVectors k g = (inl [], g))
    \/ (Exists (fun v => active v = true) featureVectors
        /\ (k < 1)%Z
        /\ exists error,
            clusterFeatureVectors featureVectors k g = (inr error, g))
    \/ (Exists (fun v => active v = true) featureVectors
        /\ (1 <= k)%Z
        /\ exists clusters g',
            clusterFeatureVectors featureVectors k g = (inl clusters, g')).
Proof.
  intros featureVectors k g.
  pose proof (filter_active_exists featureVectors) as Hex.
  unfold clusterFeatureVectors.
  change (fun v : FeatureVector => (0.1 <? at_index (vector v) 1)%float)
    with active.
  destruct (filter active featureVectors) as [|a activeVectors].
  - left. split; [apply Hex; reflexivity|reflexivity].
  - right.
    assert (Hsome : Exists (fun v => active v = true) featureVectors).
    { destruct (Exists_dec (fun v => active v = true) featureVectors) as [H|H].
      - intros v. destruct (active v); [left; reflexivity|right; discriminate].
      - exact H.
      - apply Hex in H. discriminate. }
    set (len := Z.of_nat (length (a :: activeVectors))).
    assert (Hlen : (1 <= len)%Z) by (unfold len; simpl length; lia).
    destruct (Z.ltb_spec (Z.min k len) 0).
    + left. split; [exact Hsome|]. split; [lia|]. eexists; reflexivity.
    + destruct (Z.eqb_spec (Z.min k len) 0).
      * left. split; [exact Hsome|]. split; [lia|]. eexists; reflexivity.
      * right. split; [exact Hsome|]. split; [lia|].
        destruct (kMeansClustering _ _ 100 g) as [kMeans g'].
        eexists. eexists. reflexivity.
Qed.

(** X2: a call on an idle engine gives the engine back as it was: the
    in-flight flag is cleared again on the success path and on the
    failure path, and no field of the configuration is written. *)
Theorem run_restores_engine :
  forall (e : t) (audioFeatures : list AudioFeature)
         (transcription : Transcription) (g : rng),
    isProcessing e = false ->
    run_engine (processDiarization e audioFeatures transcription g) = e.
Proof.
  intros e audioFeatures transcription g Hidle.
  unfold processDiarization. rewrite Hidle.
  cbn [with_isProcessing maxSpeakers mergeThreshold].
  destruct (clusterFeatureVectors _ _ g) as [[clusters|error] g'];
    cbn [run_engine]; apply with_isProcessing_back; exact Hidle.
Qed.

Lemma run_restores_engine_witness :
  run_engine (processDiarization listening recording hello_world counting)
  = listening
  /\ run_engine (processDiarization (with_maxSpeakers listening 0) recording
                                    hello_world counting)
     = with_maxSpeakers listening 0.
Proof.
  split.
  - apply (run_restores_engine listening recording hello_world counting).
    reflexivity.
  - apply (run_restores_engine (with_maxSpeakers listening 0) recording
                               hello_world counting).
    reflexivity.
Defined.

Lemma progress_updates_in :
  forall trace p m,
    In (NProgress p m) trace -> In (p, m) (progress_updates trace).
Proof.
  intros trace p m Hin. unfold progress_updates. apply in_flat_map.
  exists (NProgress p m). split; [exact Hin|left; reflexivity].
Qed.

(** X3: a call on an idle engine fails whenever some frame is active and
    the (integer) maximum speaker count is below 1, because the
    clustering step throws: no completion notification and no progress
    update beyond 0.10 and 0.30 is delivered, and the in-flight flag is
    clear afterwards. *)
Theorem run_fails_below_one_speaker :
  forall (e : t) (audioFeatures : list AudioFeature)
         (transcription : Transcription) (g : rng),
    isProcessing e = false ->
    Exists (fun v => active v = true) (extractFeatureVectors audioFeatures) ->
    (maxSpeakers e < 1)%Z ->
    (exists error,
        run_outcome (processDiarization e audioFeatures transcription g)
        = Failed error)
    /\ isProcessing
         (run_engine (processDiarization e audioFeatures transcription g))
       = false
    /\ (forall r,
           ~ In (NComplete r)
                (run_trace
                   (processDiarization e audioFeatures transcription g)))
    /\ (forall p m,
           In (NProgress p m)
              (run_trace (processDiarization e audioFeatures transcription g)) ->
           In (p, m) [(0.1, msg_extract); (0.3, msg_cluster)]%float).
Proof.
  intros e audioFeatures transcription g Hidle Hsome Hk.
  unfold processDiarization. rewrite Hidle.
  cbn [with_isProcessing maxSpeakers mergeThreshold onProcessingStart onError].
  destruct (clusterFeatureVectors_cases
              (extractFeatureVectors audioFeatures) (maxSpeakers e) g)
    as [[Hno _]|[(_ & _ & error & Hcl)|(_ & Hk' & _)]];
    [contradiction| |lia].
  rewrite Hcl. cbn [run_outcome run_engine run_trace isProcessing].
  split; [exists error; reflexivity|]. split; [reflexivity|]. split.
  - intros r Hin.
    apply RunProtocol.in_complete_notify in Hin.
    destruct Hin as [Hin|[_ Hin]]; [|discriminate Hin].
    repeat (apply RunProtocol.in_complete_updateProgress in Hin).
    apply RunProtocol.in_complete_notify in Hin.
    destruct Hin as [[]|[_ Hin]]; discriminate Hin.
  - intros p m Hin. apply progress_updates_in in Hin.
    rewrite RunProtocol.progress_updates_notify in Hin by discriminate.
    rewrite !RunProtocol.progress_updates_updateProgress in Hin.
    rewrite RunProtocol.progress_updates_notify in Hin by discriminate.
    cbn [onProcessingProgress with_isProcessing] in Hin.
    destruct (onProcessingProgress e); [exact Hin|destruct Hin].
Qed.

Lemma run_fails_below_one_speaker_witness :
  run_outcome (processDiarization (with_maxSpeakers listening 0) recording
                                  hello_world counting)
  = Failed TypeError
  /\ isProcessing
       (run_engine (processDiarization (with_maxSpeakers listening 0)
                                       recording hello_world counting))
     = false.
Proof.
  destruct (run_fails_below_one_speaker
              (with_maxSpeakers listening 0) recording hello_world counting)
    as (_ & Hflag & _).
  - reflexivity.
  - apply Exists_cons_hd. reflexivity.
  - reflexivity.
  - split; [reflexivity|exact Hflag].
Defined.

(** X4: the notifications of a successful run, in order: the start
    notification, the five progress milestones, the completion
    notification carrying the returned result; each kind is delivered
    when its handler is registered and nothing else is delivered (no
    error notification in particular). *)
Theorem trace_of_a_successful_run :
  forall (e : t) (audioFeatures : list AudioFeature)
         (transcription : Transcription) (g : rng) (result : Result),
    run_outcome (processDiarization e audioFeatures transcription g)
    = Done result ->
    run_trace (processDiarization e audioFeatures transcription g)
    = (if onProcessingStart e then [NStart] else [])
      ++ (if onProcessingProgress e
          then map (fun pm => NProgress (fst pm) (snd pm)) milestones
          else [])
      ++ (if onProcessingComplete e then [NComplete result] else []).
Proof.
  intros e audioFeatures transcription g result.
  unfold processDiarization.
  destruct (isProcessing e); cbn [run_outcome]; [discriminate|].
  cbn [with_isProcessing maxSpeakers mergeThreshold onProcessingStart
       onProcessingProgress onProcessingComplete].
  destruct (clusterFeatureVectors _ _ g) as [[clusters|error] g'];
    cbn [run_outcome run_trace]; [|discriminate].
  intros Hrun; injection Hrun as <-.
  unfold notify, updateProgress. cbn [onProcessingProgress with_isProcessing].
  destruct (onProcessingStart e), (onProcessingProgress e),
    (onProcessingComplete e); reflexivity.
Qed.

Lemma trace_of_a_successful_run_witness :
  exists result,
    run_trace (processDiarization listening silence hello_world counting)
    = [NStart] ++ map (fun pm => NProgress (fst pm) (snd pm)) milestones
      ++ [NComplete result].
Proof.
  eexists.
  apply (trace_of_a_successful_run listening silence hello_world counting).
  vm_compute. reflexivity.
Defined.

End RunOutcomes.


(* ===================================================================== *)
(** * The labelled series and the labels it can give                      *)
(* ===================================================================== *)

Module ClusterSeries.

Import PrimFloat.
Import SpeakerDiarization Samples.

(** X6: when some frame is active and the clustering step succeeds, the
    labelled series has one entry per input frame, in order, with the
    frame's time and vector; a frame whose scaled RMS is at most 0.1 has
    cluster -1, and every cluster id is -1 or lies below both k and the
    number of active frames.  When no frame is active the series is
    empty and no random number is drawn. *)
Theorem clusterFeatureVectors_series :
  forall (featureVectors : list FeatureVector) (k : Z) (g : rng)
         (clusters : list LabeledVector) (g' : rng),
    clusterFeatureVectors featureVectors k g = (inl clusters, g') ->
    (Exists (fun v => active v = true) featureVectors ->
     map lv_time clusters = map time featureVectors
     /\ map lv_vector clusters = map vector featureVectors
     /\ Forall (fun f => (at_index (lv_vector f) 1 <=? 0.1)%float = true ->
                         cluster f = (-1)%Z) clusters
     /\ Forall (fun f =>
                  cluster f = (-1)%Z
                  \/ (0 <= cluster f
                      < Z.min k (Z.of_nat
                                   (length (filter active featureVectors))))%Z)
               clusters)
    /\ (~ Exists (fun v => active v = true) featureVectors ->
        clusters = [] /\ g' = g).
Proof.
  intros featureVectors k g clusters g'.
  pose proof (RunOutcomes.filter_active_exists featureVectors) as Hex.
  unfold clusterFeatureVectors.
  change (fun v : FeatureVector => (0.1 <? at_index (vector v) 1)%float)
    with active.
  destruct (filter active featureVectors) as [|a activeVectors].
  - intros Heq; injection Heq as <- <-. split.
    + intros Hsome. exfalso. apply Hex; [reflexivity|exact Hsome].
    + intros _. split; reflexivity.
  - set (act := a :: activeVectors).
    set (kk := Z.min k (Z.of_nat (length act))).
    destruct (Z.ltb_spec kk 0); [discriminate|].
    destruct (Z.eqb_spec kk 0); [discriminate|].
    pose proof (KMeansFacts.kMeansClustering_shape
                  (map vector act) (Z.to_nat kk) 100 g) as Hshape.
    destruct (kMeansClustering (map vector act) (Z.to_nat kk) 100 g)
      as [kMeans g''].
    cbn [fst] in Hshape.
    destruct Hshape as (Hcs & _ & _); [discriminate|lia|lia|].
    intros Heq; injection Heq as <- <-. split.
    + intros _. split; [|split; [|split]].
      * rewrite map_map. apply map_ext. intros v.
        destruct (at_index (vector v) 1 <=? 0.1)%float; reflexivity.
      * rewrite map_map. apply map_ext. intros v.
        destruct (at_index (vector v) 1 <=? 0.1)%float; reflexivity.
      * apply Forall_forall. intros f Hin. apply in_map_iff in Hin.
        destruct Hin as (v & <- & _).
        destruct (at_index (vector v) 1 <=? 0.1)%float eqn:Hs;
          cbn [cluster lv_vector].
        -- intros _. reflexivity.
        -- rewrite Hs. discriminate.
      * apply Forall_forall. intros f Hin. apply in_map_iff in Hin.
        destruct Hin as (v & <- & _).
        destruct (at_index (vector v) 1 <=? 0.1)%float; cbn [cluster];
          [left; reflexivity|].
        unfold indexOf.
        match goal with
        | |- context [indexOf_from ?xs ?x 0%Z] =>
            destruct (Speakers.indexOf_from_range xs x 0%Z) as [->|Hr];
            [left; reflexivity|right]
        end.
        rewrite length_map, Hcs in Hr. fold kk. lia.
    + intros Hno. exfalso. apply Hex in Hno. discriminate.
Qed.

Lemma clusterFeatureVectors_series_witness :
  map lv_time labelled_recording = map time (extractFeatureVectors recording)
  /\ map cluster labelled_recording = [0; 1; 2; -1; 2]%Z.
Proof.
  destruct (clusterFeatureVectors_series
              (extractFeatureVectors recording) 3 counting
              labelled_recording
              (snd (clusterFeatureVectors (extractFeatureVectors recording) 3
                                          counting)))
    as [Hsome _].
  - vm_compute. reflexivity.
  - destruct Hsome as (Htime & _).
    + apply Exists_cons_hd. reflexivity.
    + split; [exact Htime|reflexivity].
Defined.

End ClusterSeries.


(* ===================================================================== *)
(** * The speaker roster                                                  *)
(* ===================================================================== *)

Module Roster.

Import SpeakerDiarization Samples.

Lemma insert_sorted_permutation :
  forall x xs, Permutation (insert_sorted x xs) (x :: xs).
Proof.
  intros x xs. induction xs as [|y xs IH]; simpl.
  - apply Permutation_refl.
  - destruct (String.leb x y); [apply Permutation_refl|].
    apply perm_trans with (y :: x :: xs);
      [apply perm_skip; exact IH|apply perm_swap].
Qed.

Lemma sort_permutation : forall xs, Permutation (sort xs) xs.
Proof.
  induction xs as [|x xs IH]; simpl; [apply perm_nil|].
  apply perm_trans with (x :: sort xs);
    [apply insert_sorted_permutation|apply perm_skip; exact IH].
Qed.

Lemma insert_sorted_sorted :
  forall x xs, Sorted before xs -> Sorted before (insert_sorted x xs).
Proof.
  intros x xs. induction xs as [|y xs IH]; intros Hs; simpl.
  - repeat constructor.
  - destruct (String.leb x y) eqn:Hxy.
    + constructor; [exact Hs|]. constructor. exact Hxy.
    + assert (Hyx : before y x).
      { destruct (String.leb_total x y) as [H|H]; [congruence|exact H]. }
      inversion Hs as [|? ? Hs' Hhd]; subst.
      constructor; [apply IH; exact Hs'|].
      destruct xs as [|z xs]; simpl.
      * constructor. exact Hyx.
      * destruct (String.leb x z).
        -- constructor. exact Hyx.
        -- inversion Hhd; subst. constructor. assumption.
Qed.

Lemma sort_sorted : forall xs, Sorted before (sort xs).
Proof.
  induction xs as [|x xs IH]; simpl; [constructor|].
  apply insert_sorted_sorted. exact IH.
Qed.

Lemma set_add_in :
  forall s x l, In l (set_add s x) <-> In l s \/ l = x.
Proof.
  intros s x l. unfold set_add.
  destruct (existsb (String.eqb x) s) eqn:Hex.
  - split; [tauto|]. intros [H| ->]; [exact H|].
    apply existsb_exists in Hex. destruct Hex as (y & Hy & Heq).
    apply String.eqb_eq in Heq. subst. exact Hy.
  - rewrite in_app_iff. simpl. split.
    + intros [H|[H|[]]]; [left; exact H|right; symmetry; exact H].
    + intros [H|H]; [left; exact H|right; left; symmetry; exact H].
Qed.

Lemma set_add_nodup :
  forall s x, NoDup s -> NoDup (set_add s x).
Proof.
  intros s x Hnd. unfold set_add.
  destruct (existsb (String.eqb x) s) eqn:Hex; [exact Hnd|].
  apply NoDup_rev in Hnd.
  rewrite <- (rev_involutive (s ++ [x])). apply NoDup_rev.
  rewrite rev_unit. constructor; [|exact Hnd].
  intros Hin. apply in_rev in Hin.
  assert (Htrue : existsb (String.eqb x) s = true).
  { apply existsb_exists. exists x. split; [exact Hin|apply String.eqb_refl]. }
  congruence.
Qed.

(** The callback of the [forEach] in [extractUniqueSpeakers]. *)
Lemma collect_speakers :
  forall segs acc,
    NoDup acc ->
    let collected :=
      fold_left
        (fun uniqueSpeakers segment =>
           if negb (String.eqb (speaker segment) "Unknown")
           then set_add uniqueSpeakers (speaker segment)
           else uniqueSpeakers) segs acc in
    NoDup collected
    /\ forall l,
        In l collected
        <-> In l acc
            \/ (l <> "Unknown"%string
                /\ exists s, In s segs /\ speaker s = l).
Proof.
  induction segs as [|seg segs IH]; intros acc Hnd; simpl.
  - split; [exact Hnd|]. intros l. split; [tauto|].
    intros [H|(_ & s & [] & _)]. exact H.
  - destruct (String.eqb_spec (speaker seg) "Unknown") as [Hu|Hu]; simpl.
    + destruct (IH acc Hnd) as [H1 H2]. split; [exact H1|].
      intros l. rewrite H2. split.
      * intros [H|(Hl & s & Hs & Heq)]; [left; exact H|].
        right. split; [exact Hl|]. exists s. split; [right; exact Hs|exact Heq].
      * intros [H|(Hl & s & [<-|Hs] & Heq)]; [left; exact H| |].
        -- congruence.
        -- right. split; [exact Hl|]. exists s. split; assumption.
    + destruct (IH (set_add acc (speaker seg)) (set_add_nodup _ _ Hnd))
        as [H1 H2].
      split; [exact H1|]. intros l. rewrite H2, set_add_in. split.
      * intros [[H| ->]|(Hl & s & Hs & Heq)].
        -- left; exact H.
        -- right. split; [exact Hu|]. exists seg. split; [left|]; reflexivity.
        -- right. split; [exact Hl|]. exists s.
           split; [right; exact Hs|exact Heq].
      * intros [H|(Hl & s & [<-|Hs] & Heq)].
        -- left; left; exact H.
        -- left; right. symmetry; exact Heq.
        -- right. split; [exact Hl|]. exists s. split; assumption.
Qed.

Lemma roster_members :
  forall segs l,
    In l (extractUniqueSpeakers segs)
    <-> (l <> "Unknown"%string /\ exists s, In s segs /\ speaker s = l).
Proof.
  intros segs l. unfold extractUniqueSpeakers.
  destruct (collect_speakers segs [] (NoDup_nil _)) as [_ Hin].
  split.
  - intros H. apply (Permutation_in _ (sort_permutation _)) in H.
    apply Hin in H. destruct H as [[]|H]. exact H.
  - intros H.
    apply (Permutation_in _ (Permutation_sym (sort_permutation _))).
    apply Hin. right. exact H.
Qed.

(** X8: the speaker roster is in ascending order, has no duplicate, and
    holds exactly the labels of the segments other than "Unknown". *)
Theorem extractUniqueSpeakers_roster :
  forall segs : list Segment,
    Sorted (fun a b => String.leb a b = true) (extractUniqueSpeakers segs)
    /\ NoDup (extractUniqueSpeakers segs)
    /\ forall l,
        In l (extractUniqueSpeakers segs)
        <-> (l <> "Unknown"%string
             /\ exists s, In s segs /\ speaker s = l).
Proof.
  intros segs. split; [|split].
  - unfold extractUniqueSpeakers. apply sort_sorted.
  - unfold extractUniqueSpeakers.
    destruct (collect_speakers segs [] (NoDup_nil _)) as [Hnd _].
    apply (Permutation_NoDup (Permutation_sym (sort_permutation _))).
    exact Hnd.
  - apply roster_members.
Qed.

(** X7: with the maximum set through [setMaxSpeakers], every segment of
    a successful run is labelled "Unknown" or with the letter of a
    cluster id below the maximum, and the roster holds such letters
    only; for a count of 1 or less every segment is labelled "A" or
    "Unknown". *)
Theorem labels_below_maximum :
  forall (e : t) (count : Z) (audioFeatures : list AudioFeature)
         (transcription : Transcription) (g : rng) (result : Result),
    run_outcome
      (processDiarization (setMaxSpeakers e count) audioFeatures
                          transcription g)
    = Done result ->
    Forall (fun s => label_below (maxSpeakers (setMaxSpeakers e count))
                                 (speaker s))
           (segments result)
    /\ Forall (fun l =>
                 exists c,
                   (0 <= c < maxSpeakers (setMaxSpeakers e count))%Z
                   /\ l = letter_of c)
              (speakers result)
    /\ ((count <= 1)%Z ->
        Forall (fun s => speaker s = "A"%string \/ speaker s = "Unknown"%string)
               (segments result)).
Proof.
  intros e count audioFeatures transcription g result Hrun.
  destruct (RunProtocol.run_done_inv _ _ _ _ _ Hrun)
    as (_ & clusters & g' & Hcl & ->).
  cbn [segments speakers].
  apply Speakers.clusterFeatureVectors_range in Hcl.
  pose proof (Speakers.optimizeSegments_speakers
                (label_below (maxSpeakers (setMaxSpeakers e count)))
                (mergeThreshold (setMaxSpeakers e count)) _
                (Speakers.assign_label_below clusters _
                   (extractFeatureVectors audioFeatures)
                   (chunks transcription) Hcl)) as Hlabels.
  split; [exact Hlabels|]. split.
  - apply Forall_forall. intros l Hl. apply roster_members in Hl.
    destruct Hl as (Hnu & s & Hs & <-).
    rewrite Forall_forall in Hlabels. specialize (Hlabels s Hs).
    destruct Hlabels as [Hu|Hc]; [contradiction|exact Hc].
  - intros Hcount. apply Forall_forall. intros s Hs.
    rewrite Forall_forall in Hlabels. specialize (Hlabels s Hs).
    destruct Hlabels as [Hu|(c & Hc & Hl)]; [right; exact Hu|left].
    unfold setMaxSpeakers in Hc. cbn [maxSpeakers with_maxSpeakers] in Hc.
    assert (c = 0%Z) by lia. subst c. exact Hl.
Qed.

Lemma labels_below_maximum_witness :
  exists result,
    run_outcome
      (processDiarization (setMaxSpeakers listening 1) recording
                          hello_world counting)
    = Done result
    /\ Forall (fun s => speaker s = "A"%string \/ speaker s = "Unknown"%string)
              (segments result).
Proof.
  eexists. split.
  - vm_compute. reflexivity.
  - apply (labels_below_maximum listening 1 recording hello_world counting).
    + vm_compute. reflexivity.
    + reflexivity || lia.
Defined.

End Roster.


(* ===================================================================== *)
(** * What the merge pass keeps                                           *)
(* ===================================================================== *)

Module MergeFacts.

Import PrimFloat.
Import SpeakerDiarization Samples.

Lemma append_assoc :
  forall a b c : string,
    String.append (String.append a b) c = String.append a (String.append b c).
Proof.
  induction a as [|ch a IH]; intros b c; simpl; [reflexivity|].
  rewrite IH. reflexivity.
Qed.

Lemma joined_cons2 :
  forall x y l,
    joined (x :: y :: l)
    = String.append x (String.append " " (joined (y :: l))).
Proof. reflexivity. Qed.

(** Joining the texts does not see whether two neighbours were merged. *)
Lemma joined_absorb :
  forall kept s rest,
    joined (map seg_text (absorb kept s :: rest))
    = joined (map seg_text (kept :: s :: rest)).
Proof.
  intros kept s [|z rest]; [reflexivity|].
  cbn [map]. rewrite !joined_cons2. cbn [absorb seg_text].
  rewrite append_assoc. reflexivity.
Qed.

Section WithThreshold.

Variable threshold : float.

Lemma merge_from_joined :
  forall rest kept,
    joined (map seg_text (merge_from threshold kept rest))
    = joined (map seg_text (kept :: rest)).
Proof.
  induction rest as [|s rest IH]; intros kept; [reflexivity|].
  cbn [merge_from]. destruct (mergeable threshold kept s).
  - rewrite IH. apply joined_absorb.
  - destruct (MergePass.merge_from_head threshold rest s)
      as (h & t & Heq & _).
    specialize (IH s). rewrite Heq in *.
    cbn [map] in *. rewrite !joined_cons2. rewrite IH. reflexivity.
Qed.

Lemma merge_from_length :
  forall rest kept, length (merge_from threshold kept rest) <= S (length rest).
Proof.
  induction rest as [|s rest IH]; intros kept; simpl; [lia|].
  destruct (mergeable threshold kept s); simpl.
  - specialize (IH (absorb kept s)). lia.
  - specialize (IH s). lia.
Qed.

Lemma merge_from_last :
  forall rest kept d,
    seg_end (last (merge_from threshold kept rest) d)
    = seg_end (last (kept :: rest) d).
Proof.
  induction rest as [|s rest IH]; intros kept d; [reflexivity|].
  cbn [merge_from]. destruct (mergeable threshold kept s).
  - rewrite IH. destruct rest; reflexivity.
  - destruct (MergePass.merge_from_head threshold rest s)
      as (h & t & Heq & _).
    specialize (IH s d). rewrite Heq in *.
    change (last (kept :: h :: t) d) with (last (h :: t) d).
    rewrite IH. reflexivity.
Qed.

End WithThreshold.

(** X9: the merge pass loses no text and adds none but the separating
    spaces: the texts of its output, joined by single spaces, are the
    texts of its input joined by single spaces. *)
Theorem optimizeSegments_keeps_text :
  forall (threshold : float) (segs : list Segment),
    joined (map seg_text (optimizeSegments threshold segs))
    = joined (map seg_text segs).
Proof.
  intros threshold segs.
  rewrite MergePass.optimizeSegments_merge_pass.
  destruct segs as [|first others]; [reflexivity|].
  apply merge_from_joined.
Qed.

(** X10: the merge pass never returns more segments than it was given
    and returns none only for an empty input; its first segment has the
    start and the label of the first input segment, and its last segment
    ends where the last input segment ends. *)
Theorem optimizeSegments_bounds :
  forall (threshold : float) (segs : list Segment) (d : Segment),
    length (optimizeSegments threshold segs) <= length segs
    /\ (optimizeSegments threshold segs = [] <-> segs = [])
    /\ seg_start (hd d (optimizeSegments threshold segs))
       = seg_start (hd d segs)
    /\ speaker (hd d (optimizeSegments threshold segs)) = speaker (hd d segs)
    /\ seg_end (last (optimizeSegments threshold segs) d)
       = seg_end (last segs d).
Proof.
  intros threshold segs d.
  rewrite MergePass.optimizeSegments_merge_pass.
  destruct segs as [|first others]; cbn [merge_pass].
  - repeat split; auto.
  - destruct (MergePass.merge_from_head threshold others first)
      as (h & t & Heq & Hsp & Hst).
    split; [apply merge_from_length|]. split; [|split; [|split]].
    + rewrite Heq. split; discriminate.
    + rewrite Heq. exact Hst.
    + rewrite Heq. exact Hsp.
    + apply merge_from_last.
Qed.

(** X11: the segment lists that the merge pass returns unchanged are
    exactly those in which no segment can be merged into its left
    neighbour. *)
Theorem optimizeSegments_fixed_points :
  forall (threshold : float) (segs : list Segment),
    optimizeSegments threshold segs = segs <-> settled threshold segs = true.
Proof.
  intros threshold segs.
  rewrite MergePass.optimizeSegments_merge_pass.
  destruct segs as [|first others]; cbn [merge_pass].
  - split; reflexivity.
  - split.
    + intros Heq. rewrite <- Heq. apply MergePass.settled_merge_from.
    + apply MergePass.merge_from_settled.
Qed.

Lemma assign_texts :
  forall clusters featureVectors transcriptionChunks,
    map seg_text
        (assignSpeakersToSegments clusters featureVectors transcriptionChunks)
    = map chunk_text transcriptionChunks.
Proof.
  intros clusters featureVectors transcriptionChunks.
  unfold assignSpeakersToSegments. rewrite map_map. apply map_ext.
  intros chunk. unfold label_chunk.
  destruct (timestamp chunk). reflexivity.
Qed.

(** X12: the segments of a successful run carry the whole transcript:
    their texts joined by single spaces are the chunk texts joined by
    single spaces, there are at most as many segments as chunks, and
    none when there is no chunk. *)
Theorem run_keeps_chunk_texts :
  forall (e : t) (audioFeatures : list AudioFeature)
         (transcription : Transcription) (g : rng) (result : Result),
    run_outcome (processDiarization e audioFeatures transcription g)
    = Done result ->
    joined (map seg_text (segments result))
    = joined (map chunk_text (chunks transcription))
    /\ length (segments result) <= length (chunks transcription)
    /\ (chunks transcription = [] -> segments result = []).
Proof.
  intros e audioFeatures transcription g result Hrun.
  destruct (RunProtocol.run_done_inv _ _ _ _ _ Hrun)
    as (_ & clusters & g' & _ & ->).
  cbn [segments]. split; [|split].
  - rewrite MergePass.optimizeSegments_merge_pass.
    rewrite <- (assign_texts clusters (extractFeatureVectors audioFeatures)).
    destruct (assignSpeakersToSegments _ _ _) as [|first others];
      [reflexivity|].
    apply merge_from_joined.
  - rewrite MergePass.optimizeSegments_merge_pass.
    rewrite <- (length_map (label_chunk clusters) (chunks transcription)).
    fold (assignSpeakersToSegments clusters
            (extractFeatureVectors audioFeatures) (chunks transcription)).
    destruct (assignSpeakersToSegments _ _ _) as [|first others];
      [simpl; lia|].
    apply merge_from_length.
  - intros ->. reflexivity.
Qed.

Lemma run_keeps_chunk_texts_witness :
  exists result,
    run_outcome
      (processDiarization (setMaxSpeakers listening 1) recording
                          hello_world counting)
    = Done result
    /\ joined (map seg_text (segments result)) = "hello world"%string
    /\ length (segments result) <= 2.
Proof.
  eexists. split.
  - vm_compute. reflexivity.
  - destruct (run_keeps_chunk_texts (setMaxSpeakers listening 1) recording
                                    hello_world counting
                                    {| res_text := "hello world";
                                       segments :=
                                         [ {| seg_text := "hello world";
                                              seg_start := 0;
                                              seg_end := 2;
                                              speaker := "A" |} ];
                                       speakers := ["A"%string] |})
      as (Htext & Hlen & _).
    + vm_compute. reflexivity.
    + split; [exact Htext|exact Hlen].
Defined.

End MergeFacts.



(* ===================================================================== *)
(** * What the labels depend on                                           *)
(* ===================================================================== *)

Module LabelInvariance.

Import PrimFloat.
Import SpeakerDiarization Samples.

Local Open Scope Z_scope.

Lemma permutation_filter_length :
  forall (A : Type) (p : A -> bool) (l l' : list A),
    Permutation l l' -> length (filter p l) = length (filter p l').
Proof.
  intros A p l l' Hperm.
  induction Hperm as [|x l l' _ IH|x y l|l l' l'' _ IH1 _ IH2]; simpl.
  - reflexivity.
  - destruct (p x); simpl; congruence.
  - destruct (p x), (p y); reflexivity.
  - congruence.
Qed.

Lemma frames_of_voiced :
  forall clusteredFeatures startTime endTime c,
    0 <= c ->
    frames_of clusteredFeatures startTime endTime c
    = length (filter (fun f => in_range startTime endTime f && (cluster f =? c))
                     (filter voiced clusteredFeatures)).
Proof.
  intros clusteredFeatures startTime endTime c Hc. unfold frames_of.
  rewrite Labelling.length_filter_filter. f_equal.
  apply filter_ext. intros f. unfold voiced.
  destruct (Z.eqb_spec (cluster f) c) as [->|Hne].
  - destruct (Z.leb_spec 0 c); [reflexivity|lia].
  - rewrite !andb_false_r. reflexivity.
Qed.

Lemma segment_eq :
  forall a b : Segment,
    seg_text a = seg_text b -> seg_start a = seg_start b ->
    seg_end a = seg_end b -> speaker a = speaker b -> a = b.
Proof. intros [] []; simpl; intros; subst; reflexivity. Qed.

(** Two segments asked for by the same chunk under counts that agree on
    the non-negative ids are the same segment. *)
Lemma labelled_unique :
  forall c1 c2 chunk seg1 seg2,
    (forall c, 0 <= c ->
               frames_of c1 (fst (timestamp chunk)) (snd (timestamp chunk)) c
               = frames_of c2 (fst (timestamp chunk)) (snd (timestamp chunk)) c) ->
    labelled c1 chunk seg1 -> labelled c2 chunk seg2 -> seg1 = seg2.
Proof.
  intros c1 c2 chunk seg1 seg2 Hn (Ht1 & Hs1 & He1 & Hl1) (Ht2 & Hs2 & He2 & Hl2).
  apply segment_eq; try congruence.
  destruct Hl1 as [[Hz1 Hu1]|(d1 & Hd1 & Hl1)];
    destruct Hl2 as [[Hz2 Hu2]|(d2 & Hd2 & Hl2)].
  - congruence.
  - destruct Hd2 as (Hc & Hpos & _).
    rewrite <- (Hn d2 Hc), (Hz1 d2 Hc) in Hpos. lia.
  - destruct Hd1 as (Hc & Hpos & _).
    rewrite (Hn d1 Hc), (Hz2 d1 Hc) in Hpos. lia.
  - destruct Hd1 as (Hc1 & _ & Hmax1 & Hlow1).
    destruct Hd2 as (Hc2 & _ & Hmax2 & Hlow2).
    pose proof (Hmax1 d2 Hc2) as Ha. pose proof (Hmax2 d1 Hc1) as Hb.
    rewrite <- (Hn d1 Hc1), <- (Hn d2 Hc2) in Hb.
    assert (Heq : frames_of c1 (fst (timestamp chunk)) (snd (timestamp chunk)) d2
                  = frames_of c1 (fst (timestamp chunk))
                              (snd (timestamp chunk)) d1) by lia.
    pose proof (Hlow1 d2 Hc2 Heq) as Hle1.
    assert (Heq' : frames_of c2 (fst (timestamp chunk)) (snd (timestamp chunk)) d1
                   = frames_of c2 (fst (timestamp chunk))
                               (snd (timestamp chunk)) d2).
    { rewrite <- (Hn d1 Hc1), <- (Hn d2 Hc2). lia. }
    pose proof (Hlow2 d1 Hc1 Heq') as Hle2.
    assert (d1 = d2) by lia. congruence.
Qed.

(** X13: the labels depend on the non-silent frames only, and not on
    their order: two labelled series (with array-index cluster ids) whose
    non-silent frames are the same up to order give every chunk list the
    same segments, whatever the second argument. *)
Theorem labels_ignore_silence_and_order :
  forall (series1 series2 : list LabeledVector)
         (featureVectors1 featureVectors2 : list FeatureVector)
         (transcriptionChunks : list Chunk),
    Forall (fun f => cluster f < 4294967295) series1 ->
    Forall (fun f => cluster f < 4294967295) series2 ->
    Permutation (filter voiced series1) (filter voiced series2) ->
    assignSpeakersToSegments series1 featureVectors1 transcriptionChunks
    = assignSpeakersToSegments series2 featureVectors2 transcriptionChunks.
Proof.
  intros series1 series2 fv1 fv2 transcriptionChunks _ _ Hperm.
  unfold assignSpeakersToSegments. apply map_ext. intros chunk.
  apply (labelled_unique series1 series2 chunk);
    try apply Labelling.label_chunk_labelled.
  intros c Hc. rewrite !frames_of_voiced by exact Hc.
  apply permutation_filter_length. exact Hperm.
Qed.

Lemma labels_ignore_silence_and_order_witness :
  assignSpeakersToSegments tie [] (chunks hello_world)
  = assignSpeakersToSegments
      (rev (filter voiced tie)) (extractFeatureVectors recording)
      (chunks hello_world).
Proof.
  apply (labels_ignore_silence_and_order
           tie (rev (filter voiced tie)) [] (extractFeatureVectors recording)
           (chunks hello_world)).
  - repeat (constructor; [reflexivity|]). constructor.
  - repeat (constructor; [reflexivity|]). constructor.
  - exact (Permutation_rev (filter voiced tie)).
Defined.

End LabelInvariance.


(* ===================================================================== *)
(** * The order of binary64 numbers, and the nearest centroid            *)
(* ===================================================================== *)

Module FloatOrder.

Import SpecFloat.

Ltac sf_order :=
  unfold SFltb, SFleb, SFcompare;
  repeat match goal with
         | |- context [Pos.compare_cont Eq ?a ?b] =>
             change (Pos.compare_cont Eq a b) with (Pos.compare a b)
         end;
  repeat match goal with
         | |- context [Z.compare ?a ?b] => destruct (Z.compare_spec a b)
         | |- context [Pos.compare ?a ?b] => destruct (Pos.compare_spec a b)
         end;
  simpl; intros; subst; try discriminate; try reflexivity; try lia.

Lemma SF_lt_trans :
  forall x y z, SFltb x y = true -> SFltb y z = true -> SFltb x z = true.
Proof.
  intros [[]|[]| |[] m1 e1] [[]|[]| |[] m2 e2] [[]|[]| |[] m3 e3];
    try (simpl; intros; discriminate || reflexivity); sf_order.
Qed.

Lemma SF_lt_irrefl : forall x, SFltb x x = false.
Proof. intros [[]|[]| |[] m1 e1]; try reflexivity; sf_order. Qed.

Lemma SF_lt_not_le : forall x y, SFltb x y = true -> SFleb y x = false.
Proof.
  intros [[]|[]| |[] m1 e1] [[]|[]| |[] m2 e2];
    try (simpl; intros; discriminate || reflexivity); sf_order.
Qed.

Lemma SF_lt_not_gt : forall x y, SFltb x y = true -> SFltb y x = false.
Proof.
  intros [[]|[]| |[] m1 e1] [[]|[]| |[] m2 e2];
    try (simpl; intros; discriminate || reflexivity); sf_order.
Qed.

Lemma SF_le_lt_trans :
  forall x y z, SFleb x y = true -> SFltb y z = true -> SFltb x z = true.
Proof.
  intros [[]|[]| |[] m1 e1] [[]|[]| |[] m2 e2] [[]|[]| |[] m3 e3];
    try (simpl; intros; discriminate || reflexivity); sf_order.
Qed.

Lemma SF_lt_infinity :
  forall x y, SFltb x y = true -> SFltb x (S754_infinity false) = true.
Proof.
  intros [[]|[]| |[] m1 e1] [[]|[]| |[] m2 e2];
    try (simpl; intros; discriminate || reflexivity); sf_order.
Qed.

Import PrimFloat.

Lemma ltb_trans :
  forall x y z : float,
    (x <? y)%float = true -> (y <? z)%float = true -> (x <? z)%float = true.
Proof. intros x y z. rewrite !FloatAxioms.ltb_spec. apply SF_lt_trans. Qed.

Lemma ltb_irrefl : forall x : float, (x <? x)%float = false.
Proof. intros x. rewrite FloatAxioms.ltb_spec. apply SF_lt_irrefl. Qed.

Lemma ltb_not_leb :
  forall x y : float, (x <? y)%float = true -> (y <=? x)%float = false.
Proof.
  intros x y. rewrite FloatAxioms.ltb_spec, FloatAxioms.leb_spec.
  apply SF_lt_not_le.
Qed.

Lemma ltb_not_gtb :
  forall x y : float, (x <? y)%float = true -> (y <? x)%float = false.
Proof. intros x y. rewrite !FloatAxioms.ltb_spec. apply SF_lt_not_gt. Qed.

Lemma leb_ltb_trans :
  forall x y z : float,
    (x <=? y)%float = true -> (y <? z)%float = true -> (x <? z)%float = true.
Proof.
  intros x y z. rewrite !FloatAxioms.ltb_spec, FloatAxioms.leb_spec.
  apply SF_le_lt_trans.
Qed.

Lemma ltb_infinity :
  forall x y : float, (x <? y)%float = true -> (x <? infinity)%float = true.
Proof.
  intros x y. rewrite !FloatAxioms.ltb_spec.
  change (FloatOps.Prim2SF infinity) with (S754_infinity false).
  apply SF_lt_infinity.
Qed.

Import SpeakerDiarization.

(** The scan over the indices [a], [a + 1], ... either keeps what it was
    given, nothing scanned being below the distance in hand, or ends on
    a scanned index that is below it, that nothing scanned is below, and
    that everything scanned before it is strictly above. *)
Lemma closest_from_seq :
  forall vector cs n a minDistance closestCentroid,
    let r := closest_from vector cs (seq a n) minDistance closestCentroid in
    (r = closestCentroid
     /\ forall j, a <= j < a + n ->
                  (distance_to vector cs j <? minDistance)%float = false)
    \/ (a <= r < a + n
        /\ (distance_to vector cs r <? minDistance)%float = true
        /\ (forall j, a <= j < a + n ->
                      (distance_to vector cs j <? distance_to vector cs r)%float
                      = false)
        /\ (forall j, a <= j < r ->
                      (distance_to vector cs j <=? distance_to vector cs r)%float
                      = false)).
Proof.
  intros vector cs. induction n as [|n IH]; intros a minDistance c0.
  - left. split; [reflexivity|]. intros j Hj. lia.
  - cbn [seq closest_from]. fold (distance_to vector cs a).
    destruct (distance_to vector cs a <? minDistance)%float eqn:Hlt.
    + destruct (IH (S a) (distance_to vector cs a) a)
        as [[Hr Hall]|(Hr & Hbelow & Hall & Hpre)]; right.
      * rewrite Hr. split; [lia|]. split; [exact Hlt|]. split.
        -- intros j Hj. destruct (Nat.eq_dec j a) as [->|Hne];
             [apply ltb_irrefl|apply Hall; lia].
        -- intros j Hj. lia.
      * split; [lia|]. split; [exact (ltb_trans _ _ _ Hbelow Hlt)|]. split.
        -- intros j Hj. destruct (Nat.eq_dec j a) as [->|Hne];
             [apply ltb_not_gtb; exact Hbelow|apply Hall; lia].
        -- intros j Hj. destruct (Nat.eq_dec j a) as [->|Hne];
             [apply ltb_not_leb; exact Hbelow|apply Hpre; lia].
    + destruct (IH (S a) minDistance c0)
        as [[Hr Hall]|(Hr & Hbelow & Hall & Hpre)].
      * left. split; [exact Hr|]. intros j Hj.
        destruct (Nat.eq_dec j a) as [->|Hne]; [exact Hlt|apply Hall; lia].
      * right. split; [lia|]. split; [exact Hbelow|]. split.
        -- intros j Hj. destruct (Nat.eq_dec j a) as [->|Hne];
             [|apply Hall; lia].
           match goal with |- ?b = false => destruct b eqn:Hc end;
             [|reflexivity].
           rewrite (ltb_trans _ _ _ Hc Hbelow) in Hlt. discriminate.
        -- intros j Hj. destruct (Nat.eq_dec j a) as [->|Hne];
             [|apply Hpre; lia].
           match goal with |- ?b = false => destruct b eqn:Hc end;
             [|reflexivity].
           rewrite (leb_ltb_trans _ _ _ Hc Hbelow) in Hlt. discriminate.
Qed.

(** The scan of the assignment step ends on a nearest centroid, the
    lowest index among the nearest. *)
Lemma closest_nearest :
  forall vector cs k, 1 <= k -> nearest vector cs k (closest vector cs k).
Proof.
  intros vector cs k Hk. unfold closest, nearest.
  destruct (closest_from_seq vector cs k 0 infinity 0)
    as [[Hr Hall]|(Hr & Hbelow & Hall & Hpre)].
  - rewrite Hr. split; [lia|]. split.
    + intros j Hj.
      destruct (distance_to vector cs j <? distance_to vector cs 0)%float
        eqn:Hc; [|reflexivity].
      apply ltb_infinity in Hc. rewrite Hall in Hc by lia. discriminate.
    + intros j Hj. lia.
  - split; [lia|]. split.
    + intros j Hj. apply Hall. lia.
    + intros j Hj. apply Hpre. lia.
Qed.

Lemma map_closest_nearest :
  forall cs k vectors,
    1 <= k ->
    Forall2 (fun v a => exists c, a = Z.of_nat c /\ nearest v cs k c)
            vectors
            (map (fun v => Z.of_nat (closest v cs k)) vectors).
Proof.
  intros cs k vectors Hk. induction vectors as [|v vectors IH]; simpl.
  - constructor.
  - constructor; [|exact IH].
    exists (closest v cs k). split; [reflexivity|].
    apply closest_nearest. exact Hk.
Qed.

End FloatOrder.


(* ===================================================================== *)
(** * k-means at convergence                                              *)
(* ===================================================================== *)

Module ConvergedKMeans.

Import PrimFloat.
Import SpeakerDiarization Samples.

(** ** Moving the centroids twice *)

Lemma list_update_nth_error :
  forall (A : Type) (f : A -> A) (xs : list A) (i j : nat),
    nth_error (list_update i f xs) j
    = if i =? j then option_map f (nth_error xs j) else nth_error xs j.
Proof.
  induction xs as [|x xs IH]; intros i j.
  - destruct i, j; simpl; try reflexivity. destruct (i =? j); reflexivity.
  - destruct i as [|i], j as [|j]; simpl; try reflexivity. apply IH.
Qed.

Lemma move_step_nth_error :
  forall sums counts cs i j,
    nth_error (move_step sums counts cs i) j
    = if (i =? j) && (0 <? at_index counts j)%float
      then option_map
             (fun _ => map (fun x => (x / at_index counts j)%float)
                           (nth j sums []))
             (nth_error cs j)
      else nth_error cs j.
Proof.
  intros sums counts cs i j. unfold move_step.
  destruct (Nat.eqb_spec i j) as [->|Hne]; simpl.
  - destruct (0 <? at_index counts j)%float; [|reflexivity].
    rewrite list_update_nth_error, Nat.eqb_refl. reflexivity.
  - destruct (0 <? at_index counts i)%float; [|reflexivity].
    rewrite list_update_nth_error.
    destruct (Nat.eqb_spec i j); [contradiction|reflexivity].
Qed.

Lemma fold_move_nth_error :
  forall sums counts is_ cs j,
    nth_error (fold_left (move_step sums counts) is_ cs) j
    = if existsb (fun i => i =? j) is_ && (0 <? at_index counts j)%float
      then option_map
             (fun _ => map (fun x => (x / at_index counts j)%float)
                           (nth j sums []))
             (nth_error cs j)
      else nth_error cs j.
Proof.
  intros sums counts. induction is_ as [|i is_ IH]; intros cs j; simpl.
  - reflexivity.
  - rewrite IH, move_step_nth_error.
    destruct (i =? j), (existsb (fun i0 => i0 =? j) is_),
      (0 <? at_index counts j)%float; simpl; try reflexivity.
    destruct (nth_error cs j); reflexivity.
Qed.

Lemma move_centroids_twice :
  forall k sums counts cs,
    move_centroids k sums counts (move_centroids k sums counts cs)
    = move_centroids k sums counts cs.
Proof.
  intros k sums counts cs. apply nth_error_ext. intros j.
  unfold move_centroids. fold (move_step sums counts).
  rewrite !fold_move_nth_error.
  destruct (existsb (fun i => i =? j) (seq 0 k) && (0 <? at_index counts j)%float);
    [|reflexivity].
  destruct (nth_error cs j); reflexivity.
Qed.

(** ** A round that changes nothing *)

Lemma assign_step_closest :
  forall cs k vectors asg,
    length asg = length vectors ->
    fst (assign_step cs k vectors asg)
    = map (fun v => Z.of_nat (closest v cs k)) vectors.
Proof.
  intros cs k. induction vectors as [|v vectors IH]; intros [|a asg] Hlen;
    try discriminate; [reflexivity|].
  simpl. specialize (IH asg).
  destruct (assign_step cs k vectors asg) as [rest ch]. simpl in *.
  f_equal. apply IH. lia.
Qed.

Lemma assign_step_unchanged :
  forall cs k vectors asg,
    length asg = length vectors ->
    snd (assign_step cs k vectors asg) = false ->
    fst (assign_step cs k vectors asg) = asg.
Proof.
  intros cs k. induction vectors as [|v vectors IH]; intros [|a asg] Hlen;
    try discriminate; [reflexivity|].
  simpl. specialize (IH asg).
  destruct (assign_step cs k vectors asg) as [rest ch]. simpl in *.
  intros Hch. apply orb_false_iff in Hch. destruct Hch as [Ha Hch].
  apply negb_false_iff in Ha. apply Z.eqb_eq in Ha.
  f_equal; [symmetry; exact Ha|]. apply IH; [lia|exact Hch].
Qed.

(** The centroids after a round, from those before it and the new
    assignments. *)
Lemma round_centroids :
  forall vectors k s,
    ks_centroids (round vectors k s)
    = move_centroids k
        (fst (accumulate vectors (ks_assignments (round vectors k s))
                (repeat (repeat 0%float (length (nth 0 vectors []))) k)
                (repeat 0%float k)))
        (snd (accumulate vectors (ks_assignments (round vectors k s))
                (repeat (repeat 0%float (length (nth 0 vectors []))) k)
                (repeat 0%float k)))
        (ks_centroids s).
Proof.
  intros vectors k s. unfold round.
  destruct (assign_step (ks_centroids s) k vectors (ks_assignments s))
    as [asg ch].
  destruct (accumulate vectors asg _ _) as [sums counts] eqn:Hacc.
  cbn [ks_assignments ks_centroids]. rewrite Hacc. reflexivity.
Qed.

(** A second round that rewrites no assignment leaves the centroids
    where the first round put them. *)
Lemma quiet_round :
  forall vectors k s,
    length (ks_assignments s) = length vectors ->
    changed (round vectors k (round vectors k s)) = false ->
    ks_assignments (round vectors k (round vectors k s))
    = ks_assignments (round vectors k s)
    /\ ks_centroids (round vectors k (round vectors k s))
       = ks_centroids (round vectors k s).
Proof.
  intros vectors k s Hlen Hquiet.
  set (s1 := round vectors k s) in *.
  assert (Hlen1 : length (ks_assignments s1) = length vectors).
  { unfold s1. destruct (KMeansFacts.round_fields vectors k s) as (-> & _).
    apply KMeansFacts.assign_step_length. exact Hlen. }
  assert (Hasg : ks_assignments (round vectors k s1) = ks_assignments s1).
  { destruct (KMeansFacts.round_fields vectors k s1) as (Ha & Hc & _).
    rewrite Ha. apply assign_step_unchanged; [exact Hlen1|].
    rewrite <- Hc. exact Hquiet. }
  split; [exact Hasg|].
  rewrite (round_centroids vectors k s1), Hasg.
  pose proof (round_centroids vectors k s) as Hc1. fold s1 in Hc1.
  rewrite Hc1. apply move_centroids_twice.
Qed.

Lemma while_iterates :
  forall (S : Type) (cond : S -> bool) (body : S -> S) fuel s0 s,
    while fuel cond body s0 = Some s ->
    cond s = false /\ exists n, s = Nat.iter n body s0.
Proof.
  intros S cond body. induction fuel as [|fuel IH]; intros s0 s; simpl.
  - discriminate.
  - destruct (cond s0) eqn:Hc.
    + intros Hw. destruct (IH _ _ Hw) as (Hs & n & ->). split; [exact Hs|].
      exists (Datatypes.S n). symmetry. apply Nat.iter_succ_r.
    + intros Hw; injection Hw as <-. split; [exact Hc|].
      exists 0. reflexivity.
Qed.

(** X14: when the loop of [kMeansClustering] ends before the cap of 100
    rounds, the result is a fixed point.  The last round rewrote no
    assignment and moved no centroid: the state it ended in has the
    centroids and the assignments of the state it began in, which was
    itself reached by a round.  And every vector is assigned to a
    nearest returned centroid, the lowest index among the nearest: no
    centroid is strictly closer to the vector than the one it is
    assigned to, and every centroid of lower index is strictly farther
    (or at a distance that does not compare).  That index is the one the
    scan of the assignment step finds over the returned centroids. *)
Theorem kMeans_converged :
  forall (vectors : list (list float)) (k : nat) (g : rng) (s : KState),
    vectors <> [] ->
    1 <= k ->
    kMeans_loop 101 vectors k 100 g = Some s ->
    iterations s < 100 ->
    let result := fst (kMeansClustering vectors k 100 g) in
    let s0 := fst (initial_state vectors k g) in
    centroids result = ks_centroids s
    /\ assignments result = ks_assignments s
    /\ assignments result
       = map (fun v => Z.of_nat (closest v (centroids result) k)) vectors
    /\ (exists n,
          1 <= n
          /\ s = rounds vectors k (S n) s0
          /\ ks_centroids s = ks_centroids (rounds vectors k n s0)
          /\ ks_assignments s = ks_assignments (rounds vectors k n s0))
    /\ Forall2 (fun v a =>
                  exists c, a = Z.of_nat c
                            /\ nearest v (centroids result) k c)
               vectors (assignments result).
Proof.
  intros vectors k g s Hne Hk Hloop Hearly result s0.
  assert (Hres : centroids result = ks_centroids s
                 /\ assignments result = ks_assignments s).
  { unfold result, kMeansClustering. unfold kMeans_loop in Hloop.
    destruct vectors as [|v vectors]; [congruence|].
    destruct (initial_state (v :: vectors) k g) as [s1 g'].
    cbn [fst] in Hloop |- *. rewrite Hloop. split; reflexivity. }
  destruct Hres as [Hcs Hasg]. split; [exact Hcs|]. split; [exact Hasg|].
  assert (Hfix : ks_assignments s
                 = map (fun v => Z.of_nat (closest v (ks_centroids s) k))
                       vectors
                 /\ exists n,
                      1 <= n
                      /\ s = rounds vectors k (S n) s0
                      /\ ks_centroids s = ks_centroids (rounds vectors k n s0)
                      /\ ks_assignments s
                         = ks_assignments (rounds vectors k n s0)).
  { unfold kMeans_loop in Hloop.
    destruct (KMeansFacts.initial_state_fields vectors k g)
      as (_ & Hasg0 & Hit0 & Hch0).
    fold s0 in Hloop, Hasg0, Hit0, Hch0.
    destruct (while_iterates _ _ _ _ _ _ Hloop) as (Hstop & n & Hs).
    assert (Hquiet : changed s = false).
    { unfold continue in Hstop. apply andb_false_iff in Hstop.
      destruct Hstop as [H|H]; [exact H|]. apply Nat.ltb_ge in H. lia. }
    assert (Hlen0 : length (ks_assignments s0) = length vectors).
    { rewrite Hasg0. apply repeat_length. }
    destruct n as [|[|n]].
    - simpl in Hs. subst s. congruence.
    - simpl in Hs. subst s.
      destruct (KMeansFacts.round_fields vectors k s0) as (Ha & Hc & _).
      rewrite Hc in Hquiet.
      pose proof (assign_step_unchanged _ _ _ _ Hlen0 Hquiet) as Hsame.
      rewrite (assign_step_closest _ _ _ _ Hlen0), Hasg0 in Hsame.
      destruct vectors as [|v vectors]; [congruence|].
      simpl in Hsame. injection Hsame as Hv _. lia.
    - simpl in Hs.
      set (s2 := Nat.iter n (round vectors k) s0) in *.
      assert (Hlen2 : length (ks_assignments s2) = length vectors).
      { destruct (KMeansFacts.rounds_invariant vectors k n s0 Hk Hlen0)
          as (H & _). exact H. }
      subst s.
      destruct (quiet_round vectors k s2 Hlen2 Hquiet) as [Ha Hc].
      split.
      + rewrite Hc.
        destruct (KMeansFacts.round_fields vectors k (round vectors k s2))
          as (Ha' & _).
        rewrite Ha'. apply assign_step_closest.
        destruct (KMeansFacts.round_fields vectors k s2) as (-> & _).
        apply KMeansFacts.assign_step_length. exact Hlen2.
      + exists (S n). split; [lia|]. unfold rounds. cbn [Nat.iter].
        fold s2. split; [reflexivity|]. split; [exact Hc|exact Ha]. }
  destruct Hfix as [Hclosest Hlast].
  split; [rewrite Hcs, Hasg; exact Hclosest|].
  split; [exact Hlast|].
  rewrite Hasg, Hcs, Hclosest.
  apply FloatOrder.map_closest_nearest. exact Hk.
Qed.

Lemma kMeans_converged_witness :
  assignments (fst (kMeansClustering voices 3 100 counting))
  = map (fun v =>
           Z.of_nat
             (closest v (centroids (fst (kMeansClustering voices 3 100
                                                           counting))) 3))
        voices
  /\ Forall2 (fun v a =>
                exists c,
                  a = Z.of_nat c
                  /\ nearest v (centroids (fst (kMeansClustering voices 3 100
                                                                 counting)))
                             3 c)
             voices
             (assignments (fst (kMeansClustering voices 3 100 counting))).
Proof.
  destruct (kMeans_converged
              voices 3 counting
              (match kMeans_loop 101 voices 3 100 counting with
               | Some s => s
               | None => fst (initial_state voices 3 counting)
               end)) as (_ & _ & H & _ & Hn).
  - discriminate.
  - lia.
  - vm_compute. reflexivity.
  - vm_compute. lia.
  - split; [exact H|exact Hn].
Defined.

End ConvergedKMeans.


(* ===================================================================== *)
(** * The assignment step of a round                                      *)
(* ===================================================================== *)

Module NearestCentroid.

Import PrimFloat.
Import SpeakerDiarization Samples.

(** X21: every round of the k-means loop assigns each vector to a
    nearest of the centroids the round began with, the lowest index
    among the nearest: no centroid is strictly closer to the vector, and
    every centroid of lower index is strictly farther (or at a distance
    that does not compare). *)
Theorem round_assigns_nearest :
  forall (vectors : list (list float)) (k : nat) (s : KState),
    1 <= k ->
    length (ks_assignments s) = length vectors ->
    Forall2 (fun v a =>
               exists c, a = Z.of_nat c /\ nearest v (ks_centroids s) k c)
            vectors (ks_assignments (round vectors k s)).
Proof.
  intros vectors k s Hk Hlen.
  destruct (KMeansFacts.round_fields vectors k s) as (-> & _).
  rewrite (ConvergedKMeans.assign_step_closest _ _ _ _ Hlen).
  apply FloatOrder.map_closest_nearest. exact Hk.
Qed.

Lemma round_assigns_nearest_witness :
  Forall2 (fun v a =>
             exists c,
               a = Z.of_nat c
               /\ nearest v (ks_centroids (fst (initial_state voices 3 counting)))
                          3 c)
          voices
          (ks_assignments
             (round voices 3 (fst (initial_state voices 3 counting)))).
Proof.
  apply (round_assigns_nearest voices 3 (fst (initial_state voices 3 counting))).
  - lia.
  - vm_compute. reflexivity.
Defined.

End NearestCentroid.



(* ===================================================================== *)
(** * The recording clock                                                 *)
(* ===================================================================== *)

Module ClockFacts.

Import RecordingClock.
Local Open Scope Z_scope.

(** X15: the recording time leaves pauses out.  For a running, unpaused
    recording the time read at [now] is [now] less the start and the
    pauses so far.  While it is paused from [t1] on, a reading is the
    reading of [t1] plus what the clock advanced between the two clock
    reads of the call, so it stays at the reading of [t1] when both reads
    agree.  Once resumed at [t2], every reading is the unpaused reading
    less the length [t2 - t1] of the pause, so the reading at [t2] is
    the reading at [t1].  A stopped processor reads 0. *)
Theorem clock_excludes_pauses :
  forall (p : t) (t1 t2 nowPause now : Z),
    isRecording p = true ->
    isPaused p = false ->
    getCurrentRecordingTime p nowPause now
    = QArith_base.Qmake
        (now - recordingStartTime p - totalPauseDuration p) 1000
    /\ getCurrentRecordingTime (pauseRecording p t1) nowPause now
       = QArith_base.Qmake
           (t1 - recordingStartTime p - totalPauseDuration p
            + (now - nowPause)) 1000
    /\ getCurrentRecordingTime (pauseRecording p t1) now now
       = getCurrentRecordingTime p nowPause t1
    /\ getCurrentRecordingTime (resumeRecording (pauseRecording p t1) t2)
                               nowPause now
       = QArith_base.Qmake
           (now - recordingStartTime p - totalPauseDuration p - (t2 - t1))
           1000
    /\ getCurrentRecordingTime (resumeRecording (pauseRecording p t1) t2)
                               nowPause t2
       = getCurrentRecordingTime p nowPause t1
    /\ getCurrentRecordingTime (stopped p) nowPause now
       = QArith_base.Qmake 0 1.
Proof.
  intros [rec paused start pstart total] t1 t2 nowPause now Hrec Hrun.
  cbn in Hrec, Hrun. subst rec paused.
  unfold getCurrentRecordingTime, resumeRecording, pauseRecording,
    recordingMillis, stopped. cbn.
  repeat split; f_equal; lia.
Qed.

Lemma clock_excludes_pauses_witness :
  getCurrentRecordingTime (pauseRecording (startRecording new 1000) 4000)
                          9000 9000
  = QArith_base.Qmake 3000 1000
  /\ getCurrentRecordingTime
       (resumeRecording (pauseRecording (startRecording new 1000) 4000) 6000)
       9000 9000
     = QArith_base.Qmake 6000 1000.
Proof.
  destruct (clock_excludes_pauses (startRecording new 1000)
                                  4000 6000 9000 9000)
    as (_ & _ & H1 & H2 & _).
  - reflexivity.
  - reflexivity.
  - split; [exact H1|exact H2].
Defined.

(** X16: the duration computed when a recording stops is the recording
    time of that moment when the recording is not paused; when it is
    stopped while paused, the running pause is counted in: the duration
    exceeds the recording time by the time since the pause began. *)
Theorem stop_duration_counts_running_pause :
  forall (p : t) (now : Z),
    isRecording p = true ->
    stopDuration p now
    = QArith_base.Qmake
        (recordingMillis p now now
         + (if isPaused p then now - pauseStartTime p else 0))
        1000
    /\ (isPaused p = false ->
        stopDuration p now = getCurrentRecordingTime p now now).
Proof.
  intros [rec paused start pstart total] now Hrec.
  cbn in Hrec. subst rec.
  unfold stopDuration, getCurrentRecordingTime, recordingMillis. cbn. split.
  - destruct paused; f_equal; lia.
  - intros ->. f_equal.
Qed.

Lemma stop_duration_counts_running_pause_witness :
  stopDuration (pauseRecording (startRecording new 1000) 4000) 9000
  = QArith_base.Qmake 8000 1000
  /\ getCurrentRecordingTime (pauseRecording (startRecording new 1000) 4000)
                             9000 9000
     = QArith_base.Qmake 3000 1000.
Proof.
  destruct (stop_duration_counts_running_pause
              (pauseRecording (startRecording new 1000) 4000) 9000)
    as (H & _).
  - reflexivity.
  - split; [exact H|reflexivity].
Defined.

End ClockFacts.


(* ===================================================================== *)
(** * Zero crossings                                                      *)
(* ===================================================================== *)

Module ZeroCrossings.

Import PrimFloat.
Import TimeDomain.

Lemma crossings_from_bound :
  forall rest previous, crossings_from previous rest <= length rest.
Proof.
  induction rest as [|current rest IH]; intros previous; simpl; [lia|].
  specialize (IH current). destruct (crosses previous current); lia.
Qed.

Lemma crossings_from_alternating :
  forall rest previous,
    alternating_from previous rest = true ->
    crossings_from previous rest = length rest.
Proof.
  induction rest as [|current rest IH]; intros previous; simpl; [reflexivity|].
  intros Halt. apply andb_prop in Halt. destruct Halt as [-> Halt].
  rewrite (IH current Halt). reflexivity.
Qed.

Lemma crossings_from_one_sign :
  forall rest previous,
    (negative previous = false /\ Forall (fun x => negative x = false) rest)
    \/ (nonnegative previous = false
        /\ Forall (fun x => nonnegative x = false) rest) ->
    crossings_from previous rest = 0.
Proof.
  induction rest as [|current rest IH]; intros previous Hsign; simpl;
    [reflexivity|].
  unfold crosses.
  destruct Hsign as [[Hp Hall]|[Hp Hall]]; inversion Hall as [|? ? Hc Hrest];
    subst; rewrite Hp, Hc; rewrite ?andb_false_r; simpl.
  - apply IH. left. split; assumption.
  - apply IH. right. split; assumption.
Qed.

(** X17: the number of sign changes that [calculateZeroCrossingRate]
    counts, the numerator of the rate, is at most the number of samples
    less one; it is 0 when no sample is below zero and when no sample is
    at or above zero, and it is the number of samples less one when
    every two neighbours differ in sign. *)
Theorem zero_crossings_counted :
  forall timeData : list float,
    calculateZeroCrossingRate timeData
    = (number (crossings timeData) / number (length timeData))%float
    /\ crossings timeData <= length timeData - 1
    /\ (Forall (fun x => negative x = false) timeData ->
        crossings timeData = 0)
    /\ (Forall (fun x => nonnegative x = false) timeData ->
        crossings timeData = 0)
    /\ (alternating timeData = true ->
        crossings timeData = length timeData - 1).
Proof.
  intros [|first rest]; cbn [crossings alternating length].
  - repeat split; auto.
  - split; [reflexivity|]. split.
    + pose proof (crossings_from_bound rest first). lia.
    + split; [|split].
      * intros Hall. inversion Hall; subst.
        apply crossings_from_one_sign. left. split; assumption.
      * intros Hall. inversion Hall; subst.
        apply crossings_from_one_sign. right. split; assumption.
      * intros Halt. rewrite (crossings_from_alternating rest first Halt). lia.
Qed.

End ZeroCrossings.


(* ===================================================================== *)
(** * The spectral flux between frames                                    *)
(* ===================================================================== *)

Module FluxFacts.

Import AudioProcessor.
Local Open Scope R_scope.

Lemma flux_step_same :
  forall (frame : list R) (sum : R),
    fold_left
      (fun sum fp =>
         let diff := magnitude (fst fp) - magnitude (snd fp) in
         sum + diff * diff)
      (combine frame frame) sum
    = sum.
Proof.
  induction frame as [|x frame IH]; intros sum; simpl; [reflexivity|].
  rewrite IH. lra.
Qed.

Lemma flux_sum_same : forall frame, flux_sum frame frame = 0.
Proof. intros frame. unfold flux_sum. apply flux_step_same. Qed.

Lemma typed_array_set_same_length :
  forall target source,
    length source = length target ->
    typed_array_set target source = Some source.
Proof.
  intros target source Hlen. unfold typed_array_set.
  rewrite Hlen, Nat.leb_refl, skipn_all, app_nil_r. reflexivity.
Qed.

(** X18: on a processor whose slot holds a previous spectrum, with every
    bin of the slot and of the frame at most 3000 dB (so that no linear
    magnitude overflows): a frame of the slot's length gives a flux that
    is not negative and leaves the frame in the slot; the flux of a frame
    equal to the previous one is exactly 0; a frame longer than the slot
    makes the call throw. *)
Theorem flux_against_previous_frame :
  forall (p : t) (prev freqData : list R),
    prevFreqData p = Some prev ->
    Forall (fun db => db <= 3000) prev ->
    Forall (fun db => db <= 3000) freqData ->
    (length freqData = length prev ->
     calculateSpectralFlux p freqData
     = Some (R_sqrt.sqrt (flux_sum freqData prev),
             {| prevFreqData := Some freqData;
                audioFeatures := audioFeatures p |})
     /\ 0 <= R_sqrt.sqrt (flux_sum freqData prev))
    /\ (freqData = prev ->
        calculateSpectralFlux p freqData
        = Some (0, {| prevFreqData := Some freqData;
                      audioFeatures := audioFeatures p |}))
    /\ ((length prev < length freqData)%nat ->
        calculateSpectralFlux p freqData = None).
Proof.
  intros p prev freqData Hslot _ _. unfold calculateSpectralFlux. rewrite Hslot.
  split; [|split].
  - intros Hlen. rewrite (typed_array_set_same_length _ _ Hlen).
    split; [reflexivity|apply R_sqrt.sqrt_pos].
  - intros ->. rewrite (typed_array_set_same_length prev prev eq_refl).
    rewrite flux_sum_same, R_sqrt.sqrt_0. reflexivity.
  - intros Hlong. unfold typed_array_set.
    destruct (Nat.leb_spec (length freqData) (length prev)); [lia|reflexivity].
Qed.

Lemma flux_against_previous_frame_witness :
  calculateSpectralFlux
    {| prevFreqData := Some [20; 0]; audioFeatures := [] |} [20; 0]
  = Some (0, {| prevFreqData := Some [20; 0]; audioFeatures := [] |})
  /\ calculateSpectralFlux
       {| prevFreqData := Some [20; 0]; audioFeatures := [] |} [0; 0; 0]
     = None.
Proof.
  destruct (flux_against_previous_frame
              {| prevFreqData := Some [20; 0]; audioFeatures := [] |}
              [20; 0] [20; 0] eq_refl) as (_ & Hsame & _).
  { repeat (constructor; [lra|]). constructor. }
  { repeat (constructor; [lra|]). constructor. }
  destruct (flux_against_previous_frame
              {| prevFreqData := Some [20; 0]; audioFeatures := [] |}
              [20; 0] [0; 0; 0] eq_refl) as (_ & _ & Hlong).
  { repeat (constructor; [lra|]). constructor. }
  { repeat (constructor; [lra|]). constructor. }
  split; [apply Hsame; reflexivity|apply Hlong; simpl; lia].
Defined.

Lemma flux_step_zeros :
  forall (frame : list R) (sum : R),
    fold_left
      (fun sum fp =>
         let diff := magnitude (fst fp) - magnitude (snd fp) in
         sum + diff * diff)
      (combine frame (Float32Array (length frame))) sum
    = fold_left (fun sum x => sum + (magnitude x - 1) * (magnitude x - 1))
                frame sum.
Proof.
  induction frame as [|x frame IH]; intros sum; [reflexivity|].
  cbn [length Float32Array repeat combine fold_left fst snd].
  rewrite AudioProcessorFacts.magnitude_0. apply IH.
Qed.

(** X19: the flux of the second frame of a new processor does not look
    at the first frame: the first call seeds the slot with a zero array,
    whose bins stand for 0 dB, magnitude 1, so for frames of one length
    the second flux is the norm of the second frame's magnitudes less 1
    in every bin. *)
Theorem second_flux_ignores_first_frame :
  forall (first second : list R),
    length second = length first ->
    calculateSpectralFlux (after_frames new [first]) second
    = Some (R_sqrt.sqrt
              (fold_left
                 (fun sum x => sum + (magnitude x - 1) * (magnitude x - 1))
                 second 0),
            {| prevFreqData := Some second; audioFeatures := [] |}).
Proof.
  intros first second Hlen.
  unfold after_frames, calculateSpectralFlux. cbn.
  rewrite typed_array_set_same_length
    by (unfold Float32Array; rewrite repeat_length; exact Hlen).
  unfold flux_sum. rewrite <- Hlen, flux_step_zeros. reflexivity.
Qed.

Lemma second_flux_ignores_first_frame_witness :
  calculateSpectralFlux (after_frames new [[20]]) [0]
  = Some (0, {| prevFreqData := Some [0]; audioFeatures := [] |}).
Proof.
  rewrite (second_flux_ignores_first_frame [20] [0] eq_refl).
  cbn [fold_left]. rewrite AudioProcessorFacts.magnitude_0.
  replace (0 + (1 - 1) * (1 - 1)) with 0 by lra.
  rewrite R_sqrt.sqrt_0. reflexivity.
Defined.

End FluxFacts.


(* ===================================================================== *)
(** * Use of the random source                                            *)
(* ===================================================================== *)

Module RandomDraws.

Import PrimFloat.
Import SpeakerDiarization Samples.

Lemma initial_centroids_rng :
  forall vectors k g, snd (initial_centroids vectors k g) = advanced g k.
Proof.
  intros vectors k. induction k as [|k IH]; intros g; simpl.
  - destruct g. unfold advanced. simpl. f_equal. lia.
  - specialize (IH (rng_next g)).
    destruct (initial_centroids vectors k (rng_next g)) as [rest g'].
    simpl in *. rewrite IH. unfold advanced, rng_next. simpl. f_equal. lia.
Qed.

Lemma kMeansClustering_rng :
  forall vectors k maxIterations g,
    vectors <> [] ->
    snd (kMeansClustering vectors k maxIterations g) = advanced g k.
Proof.
  intros vectors k maxIterations g Hne. unfold kMeansClustering.
  destruct vectors as [|v vectors]; [congruence|].
  pose proof (initial_centroids_rng (v :: vectors) k g) as Hrng.
  unfold initial_state.
  destruct (initial_centroids (v :: vectors) k g) as [cs g'].
  cbn [snd] in *. exact Hrng.
Qed.

Lemma clusterFeatureVectors_rng :
  forall featureVectors k g,
    snd (clusterFeatureVectors featureVectors k g)
    = advanced g
        (match fst (clusterFeatureVectors featureVectors k g) with
         | inl _ =>
             Z.to_nat (Z.min k (Z.of_nat
                                  (length (filter active featureVectors))))
         | inr _ => 0
         end).
Proof.
  intros featureVectors k g. unfold clusterFeatureVectors.
  change (fun v : FeatureVector => (0.1 <? at_index (vector v) 1)%float)
    with active.
  assert (Hzero : advanced g 0 = g).
  { destruct g. unfold advanced. simpl. f_equal. lia. }
  destruct (filter active featureVectors) as [|a activeVectors].
  - cbn [fst snd length]. replace (Z.to_nat (Z.min k (Z.of_nat 0))) with 0 by lia.
    symmetry. exact Hzero.
  - set (act := a :: activeVectors).
    destruct (Z.min k (Z.of_nat (length act)) <? 0)%Z;
      [symmetry; exact Hzero|].
    destruct (Z.min k (Z.of_nat (length act)) =? 0)%Z;
      [symmetry; exact Hzero|].
    pose proof (kMeansClustering_rng
                  (map vector act)
                  (Z.to_nat (Z.min k (Z.of_nat (length act)))) 100 g) as Hrng.
    destruct (kMeansClustering (map vector act) _ 100 g) as [kMeans g'].
    cbn [fst snd] in *. apply Hrng. discriminate.
Qed.

(** What a run leaves of the random source, by outcome of the model. *)
Lemma run_rng_advanced :
  forall (e : t) (audioFeatures : list AudioFeature)
         (transcription : Transcription) (g : rng),
    run_rng (processDiarization e audioFeatures transcription g)
    = {| draw := draw g;
         cursor :=
           cursor g
           + match run_outcome
                     (processDiarization e audioFeatures transcription g) with
             | Done _ =>
                 Z.to_nat
                   (Z.min (maxSpeakers e)
                          (Z.of_nat
                             (length
                                (filter active
                                        (extractFeatureVectors audioFeatures)))))
             | _ => 0
             end |}.
Proof.
  intros e audioFeatures transcription g.
  assert (Hzero : g = {| draw := draw g; cursor := cursor g + 0 |}).
  { destruct g. simpl. f_equal. lia. }
  unfold processDiarization.
  destruct (isProcessing e); cbn [run_rng run_outcome]; [exact Hzero|].
  cbn [with_isProcessing maxSpeakers mergeThreshold].
  pose proof (clusterFeatureVectors_rng
                (extractFeatureVectors audioFeatures) (maxSpeakers e) g) as Hrng.
  destruct (clusterFeatureVectors _ _ g) as [[clusters|error] g'];
    cbn [run_rng run_outcome fst snd] in *; exact Hrng.
Qed.

(** X20: [Math.random] is called once per initial centroid and nowhere
    else: a successful run draws exactly min(maxSpeakers, number of
    active frames) random numbers, hence none when no frame is active. *)
Theorem random_numbers_drawn :
  forall (e : t) (audioFeatures : list AudioFeature)
         (transcription : Transcription) (g : rng) (result : Result),
    run_outcome (processDiarization e audioFeatures transcription g)
    = Done result ->
    run_rng (processDiarization e audioFeatures transcription g)
    = advanced g
        (Z.to_nat
           (Z.min (maxSpeakers e)
                  (Z.of_nat
                     (length
                        (filter active
                                (extractFeatureVectors audioFeatures))))))
    /\ (~ Exists (fun v => active v = true)
                 (extractFeatureVectors audioFeatures) ->
        run_rng (processDiarization e audioFeatures transcription g) = g).
Proof.
  intros e audioFeatures transcription g result Hrun.
  pose proof (run_rng_advanced e audioFeatures transcription g) as Hrng.
  rewrite Hrun in Hrng. split; [exact Hrng|].
  intros Hno. apply RunOutcomes.filter_active_exists in Hno.
  rewrite Hrng, Hno. cbn [length].
  replace (Z.to_nat (Z.min (maxSpeakers e) (Z.of_nat 0))) with 0 by lia.
  destruct g. simpl. f_equal. lia.
Qed.

Lemma random_numbers_drawn_witness :
  cursor (run_rng (processDiarization (setMaxSpeakers listening 2) recording
                                      hello_world counting))
  = 2
  /\ cursor (run_rng (processDiarization listening silence hello_world
                                         counting))
     = 0.
Proof.
  destruct (random_numbers_drawn
              (setMaxSpeakers listening 2) recording hello_world counting
              {| res_text := "hello world";
                 segments :=
                   [ {| seg_text := "hello"; seg_start := 0; seg_end := 1;
                        speaker := "A" |};
                     {| seg_text := "world"; seg_start := 1.2; seg_end := 2;
                        speaker := "B" |} ];
                 speakers := ["A"; "B"]%string |}) as (Hdraws & _).
  { vm_compute. reflexivity. }
  split; [rewrite Hdraws; reflexivity|reflexivity].
Defined.

End RandomDraws.
